(** * go-kubernetes: cluster image enumeration

    A shallow embedding of the Go packages of the repository:

    - [env]: environment lookups with a default and an alias table;
    - [k8s] (file [image.go]): the [Image] value and its name parser;
    - [k8s] (file [service_out_cluster.go]): the out-of-cluster client
      and the three image collectors;
    - [main]: the command that prints the images of the cluster.

    Go strings are byte strings, modelled by [string]; a Go
    [map[string]struct{}] is a [gset string]; a Go [map[string]string]
    is a [gmap string string]; a slice is a [list].  A Go function
    returning [(T, error)] is modelled either by the pair itself or by
    [result]; a run-time panic is the [None] of an [option]. *)

From Stdlib Require Import Ascii String ZArith.
From stdpp Require Import base option list strings gmap sets relations sorting.

Set Warnings "-clear-no-such-hyp".

Local Open Scope string_scope.
Local Open Scope list_scope.
Local Open Scope stdpp_scope.

(** ** Go results *)

(** The value of a call returning [(T, error)]: either the value with a
    nil error, or a non-nil error. *)
Inductive result (E A : Type) : Type :=
| Ok (a : A)
| Err (e : E).
Arguments Ok {E A} a.
Arguments Err {E A} e.

Definition is_Err {E A} (r : result E A) : bool :=
  match r with Ok _ => false | Err _ => true end.

(** ** Package [strings] of the Go library *)

Module gostrings.

(** [strings.Split(s, sep)] for a separator of one byte: the
    substrings of [s] between the occurrences of [sep], in order; there
    is one more substring than there are occurrences, so the slice is
    never empty and is [[s]] when [sep] does not occur. *)
Fixpoint Split (s : string) (sep : ascii) : list string :=
  match s with
  | EmptyString => [EmptyString]
  | String c s' =>
      if Ascii.eqb c sep then EmptyString :: Split s' sep
      else match Split s' sep with
           | [] => [String c EmptyString]
           | hd :: tl => String c hd :: tl
           end
  end.

(** [strings.Contains(s, sep)] for a separator of one byte. *)
Fixpoint Contains (s : string) (sep : ascii) : bool :=
  match s with
  | EmptyString => false
  | String c s' => Ascii.eqb c sep || Contains s' sep
  end.

(** [strings.Count(s, sep)] for a separator of one byte. *)
Fixpoint Count (s : string) (sep : ascii) : nat :=
  match s with
  | EmptyString => 0
  | String c s' => (if Ascii.eqb c sep then 1 else 0) + Count s' sep
  end.

(** [strings.Join(elems, sep)] for a separator of one byte. *)
Fixpoint Join (elems : list string) (sep : ascii) : string :=
  match elems with
  | [] => ""
  | [e] => e
  | e :: elems' => e +:+ String sep (Join elems' sep)
  end.

End gostrings.

(** ** Package [env] *)

Module env.

(** The process environment read by [os.LookupEnv]: a variable that is
    set, possibly to the empty string, is a key of the map. *)
Definition LookupEnv (environ : gmap string string) (name : string)
  : option string :=
  environ !! name.

Definition GetEnvOrDefault (environ : gmap string string)
    (name other : string) : string :=
  match LookupEnv environ name with
  | None => other
  | Some found => found
  end.

Definition LookupEnvOrDefault (environ : gmap string string)
    (lookUpMap : gmap string string) (name other : string) : string :=
  let defaut := GetEnvOrDefault environ name other in
  match lookUpMap !! defaut with
  | Some value => value
  | None => defaut
  end.

End env.

(** ** Package [k8s]: images *)

Module image.

Record Image : Type := { Repository : string; Tag : string }.

(** The zero value [Image{}]. *)
Definition zero : Image := {| Repository := ""; Tag := "" |}.

(** [(i *Image).getFromImageName(name)]: the receiver after the call,
    or [None] when an index expression panics. *)
Definition getFromImageName (i : Image) (name : string) : option Image :=
  let s := gostrings.Split name ":" in
  if decide (length s = 1) then
    let i := {| Repository := name; Tag := Tag i |} in
    let i := {| Repository := Repository i; Tag := "latest" |} in
    Some i
  else
    s0 ← s !! 0;
    let i := {| Repository := s0; Tag := Tag i |} in
    s1 ← s !! 1;
    let i := {| Repository := Repository i; Tag := s1 |} in
    Some i.

Definition NewImage (s : string) : option Image :=
  let image := zero in
  getFromImageName image s.

End image.

(** ** The Kubernetes API types read by the collectors *)

Module v1.

Record Container : Type := { Image : string }.
Record PodSpec : Type := { Containers : list Container }.
Record Pod : Type := { Spec : PodSpec }.
Record PodList : Type := { Items : list Pod; Continue : string }.

End v1.

Module metav1.

Record ListOptions : Type := { Limit : Z; Continue : string }.

End metav1.

(** ** Package [k8s]: the out-of-cluster client *)

Module k8s.

Record K8SOutCli (Ctx Clientset : Type) : Type :=
  { ctx : option Ctx; clientset : option Clientset }.
Arguments ctx {Ctx Clientset} k.
Arguments clientset {Ctx Clientset} k.

(** *** Construction of the client *)

Section NewK8SOutCli.

(** What the constructor takes from outside the repository: the
    context package, the home directory, path joining, the process
    environment and the two client-go constructors.  A
    [context.Context] is an interface value, [None] when nil. *)
Context {Ctx Config Clientset error : Type}.
Variable Background : Ctx.
Variable HomeDir : string.
Variable Join : list string -> string.
Variable environ : gmap string string.
Variable errors_New : string -> error.
Variable BuildConfigFromFlags : string -> string -> result error Config.
Variable NewForConfig : Config -> result error Clientset.

Definition getKubeConfig : result error string :=
  let kubeconfig := "" in
  let kubeconfig :=
    if decide (HomeDir <> "") then Join [HomeDir; ".kube"; "config"]
    else kubeconfig in
  let kubeconfig := env.GetEnvOrDefault environ "KUBE_CONFIG" kubeconfig in
  if decide (kubeconfig = "") then
    Err (errors_New "kubeconfig path not found, nor provided by environment variable KUBE_CONFIG")
  else Ok kubeconfig.

Definition NewK8SOutCli (ctx0 : option Ctx)
  : result error (K8SOutCli Ctx Clientset) :=
  let k : K8SOutCli Ctx Clientset :=
    {| ctx := None; clientset := None |} in
  let k : K8SOutCli Ctx Clientset :=
    match ctx0 with
    | Some _ => {| ctx := ctx0; clientset := clientset k |}
    | None => {| ctx := Some Background; clientset := clientset k |}
    end in
  match getKubeConfig with
  | Err err => Err err
  | Ok kubeconfig =>
      match BuildConfigFromFlags "" kubeconfig with
      | Err err => Err err
      | Ok config =>
          match NewForConfig config with
          | Err err => Err err
          | Ok cs => Ok {| ctx := ctx k; clientset := Some cs |}
          end
      end
  end.

End NewK8SOutCli.

(** *** The sequential collector *)

(** One iteration of the inner loop of [getImagesV1], on the pair of
    the presence set and the output slice. *)
Definition V1_container (st : gset string * list string) (c : v1.Container)
  : gset string * list string :=
  let '(imageSet, images) := st in
  if decide (v1.Image c <> "") then
    if decide (v1.Image c ∈ imageSet) then st
    else ({[ v1.Image c ]} ∪ imageSet, images ++ [v1.Image c])
  else st.

Definition V1_pod (st : gset string * list string) (pod : v1.Pod)
  : gset string * list string :=
  foldl V1_container st (v1.Containers (v1.Spec pod)).

Definition getImagesV1 (pods : v1.PodList) : list string :=
  (foldl V1_pod (∅, []) (v1.Items pods)).2.

(** *** The collectors that range over a Go map *)

(** One iteration of the receiving loops: a non-empty image enters the
    presence set. *)
Definition add_image (imageSet : gset string) (c : v1.Container)
  : gset string :=
  if decide (v1.Image c <> "") then {[ v1.Image c ]} ∪ imageSet
  else imageSet.

Definition add_pod (imageSet : gset string) (pod : v1.Pod) : gset string :=
  foldl add_image imageSet (v1.Containers (v1.Spec pod)).

(** The states of [GetImagesV3]: what each per-pod goroutine has still
    to scan, and the presence set of the receiving loop.  The channel
    is unbuffered, so a send and its receive are one step. *)
Record V3State : Type :=
  { workers : list (list v1.Container); imageSet : gset string }.

Inductive V3step : V3State -> V3State -> Prop :=
| V3_skip ws set i c cs :
    ws !! i = Some (c :: cs) ->
    v1.Image c = "" ->
    V3step {| workers := ws; imageSet := set |}
           {| workers := <[i := cs]> ws; imageSet := set |}
| V3_send ws set i c cs :
    ws !! i = Some (c :: cs) ->
    v1.Image c <> "" ->
    V3step {| workers := ws; imageSet := set |}
           {| workers := <[i := cs]> ws;
              imageSet := {[ v1.Image c ]} ∪ set |}.

Definition V3init (pods : v1.PodList) : V3State :=
  {| workers := (fun pod => v1.Containers (v1.Spec pod)) <$> v1.Items pods;
     imageSet := ∅ |}.

(** [wg.Wait()] returns, and the channel is closed, once every
    goroutine has returned. *)
Definition V3done (st : V3State) : Prop :=
  Forall (fun w => w = []) (workers st).

(** A scheduler for [V3step]: the goroutines named by [sched] take one
    step each, in that order; a goroutine that has returned does
    nothing. *)
Definition V3exec1 (st : V3State) (i : nat) : V3State :=
  match workers st !! i with
  | Some (c :: cs) =>
      {| workers := <[i := cs]> (workers st);
         imageSet := add_image (imageSet st) c |}
  | _ => st
  end.

Definition V3exec (sched : list nat) (st : V3State) : V3State :=
  foldl V3exec1 st sched.

(** The schedule that runs the goroutines one after the other. *)
Definition V3sequential (ws : list (list v1.Container)) : list nat :=
  mjoin (imap (fun i w => replicate (length w) i) ws).

Section collectors.

Context {error : Type}.

(** The order in which [range] visits the keys of a map is not
    specified: any enumeration of the keys. *)
Variable range_map : gset string -> list string.

(** The [List] call of the clientset, by the number of calls made
    before it. *)
Variable List : nat -> metav1.ListOptions -> result error v1.PodList.

(** Whether the [select] that publishes record number [n] takes the
    [ctx.Done()] case. *)
Variable ctx_Done : nat -> bool.

Definition GetClusterImagesV1 : list string * option error :=
  let images := [] in
  match List 0 {| metav1.Limit := 0; metav1.Continue := "" |} with
  | Err err => (images, Some err)
  | Ok pods => (getImagesV1 pods, None)
  end.

Definition getImagesV2 (podChan : list v1.Pod) : list string :=
  let imageSet := foldl add_pod ∅ podChan in
  range_map imageSet.

(** The loop over one page in the producing goroutine: the records
    published, and whether the goroutine returned on [ctx.Done()]. *)
Fixpoint publish (items : list v1.Pod) (sent : nat) : list v1.Pod * bool :=
  match items with
  | [] => ([], false)
  | pod :: items' =>
      if ctx_Done sent then ([], true)
      else let '(published, cancelled) := publish items' (S sent) in
           (pod :: published, cancelled)
  end.

(** The producing goroutine: the records it publishes before it
    closes the channel, or [None] when [fuel] pages do not exhaust
    the pagination. *)
Fixpoint producer (fuel calls sent : nat) (continueToken : string)
  : option (list v1.Pod) :=
  match fuel with
  | 0 => None
  | S fuel' =>
      match List calls {| metav1.Limit := 100;
                          metav1.Continue := continueToken |} with
      | Err _ => Some []
      | Ok pods =>
          let '(published, cancelled) := publish (v1.Items pods) sent in
          if cancelled then Some published
          else
            let continueToken := v1.Continue pods in
            if decide (continueToken = "") then Some published
            else
              rest ← producer fuel' (S calls)
                       (sent + length published) continueToken;
              Some (published ++ rest)
      end
  end.

Definition GetClusterImagesV2 (fuel : nat)
  : option (list string * option error) :=
  podChan ← producer fuel 0 0 "";
  Some (getImagesV2 podChan, None).

(** The source serves [pages] and then [last], one page for each call
    from call number [calls] on, each call made with the token of the
    page before it; [last] alone carries the empty token. *)
Fixpoint serves (calls : nat) (continueToken : string)
    (pages : list v1.PodList) (last : v1.PodList) : Prop :=
  let opts := {| metav1.Limit := 100; metav1.Continue := continueToken |} in
  match pages with
  | [] => List calls opts = Ok last /\ v1.Continue last = ""
  | page :: pages' =>
      List calls opts = Ok page /\ v1.Continue page <> ""
      /\ serves (S calls) (v1.Continue page) pages' last
  end.

(** The source serves [pages], each with a continuation token that is
    not empty, one page for each call from call number [calls] on, each
    call made with the token of the page before it; the call after the
    last of them fails with [err]. *)
Fixpoint serves_then_fails (calls : nat) (continueToken : string)
    (pages : list v1.PodList) (err : error) : Prop :=
  let opts := {| metav1.Limit := 100; metav1.Continue := continueToken |} in
  match pages with
  | [] => List calls opts = Err err
  | page :: pages' =>
      List calls opts = Ok page /\ v1.Continue page <> ""
      /\ serves_then_fails (S calls) (v1.Continue page) pages' err
  end.

(** [GetImagesV3] returns [out] in some execution. *)
Definition GetImagesV3 (pods : v1.PodList) (out : list string) : Prop :=
  exists st, rtc V3step (V3init pods) st /\ V3done st /\
             out = range_map (imageSet st).

End collectors.

End k8s.

(** ** What the collectors are specified against *)

Module scan.

(** The containers of a sequence of pods, in scan order. *)
Definition containers_of (pods : list v1.Pod) : list v1.Container :=
  pod ← pods; v1.Containers (v1.Spec pod).

(** The images of a sequence of containers, the empty ones skipped. *)
Definition images_of (cs : list v1.Container) : list string :=
  filter (fun x => x <> "") (v1.Image <$> cs).

(** The item identifiers of a sequence of pods in scan order: the image
    of every container of every pod, the empty ones skipped. *)
Definition scanned (pods : list v1.Pod) : list string :=
  images_of (containers_of pods).

(** What the goroutines of the fan-out collector have still to send. *)
Definition pending (ws : list (list v1.Container)) : list string :=
  images_of (mjoin ws).

(** "Appends an identifier to the output only on first sight,
    preserving input order": [x] is kept when it does not occur among
    the identifiers [earlier] in the input. *)
Fixpoint first_seen (earlier l : list string) : list string :=
  match l with
  | [] => []
  | x :: l' =>
      if decide (x ∈ earlier) then first_seen (x :: earlier) l'
      else x :: first_seen (x :: earlier) l'
  end.

End scan.

(** ** The goroutines of [GetImagesV3] *)

Module fanout.

(** A goroutine started for a record: in its loop, with the containers
    it has still to scan, or returned ([wg.Done()] run). *)
Inductive goroutine : Type :=
| Run (todo : list v1.Container)
| Ret.

(** The goroutine that runs [wg.Wait()] and then [close(ch)]. *)
Inductive barrier : Type :=
| NotStarted
| Waiting
| Closing
| Closed.

(** Where the calling goroutine stands: before [wg.Add(1)] of iteration
    [i] of the first loop (past the loop, before the second [go], when
    [i] is the number of records), before the [go] of iteration [i],
    receiving in [for image := range ch], before the assignment to
    [imageSet] with the image received, or past the receiving loop. *)
Inductive mainpc : Type :=
| Add (i : nat)
| Go (i : nat)
| Range
| Store (image : string)
| Return.

Record State : Type :=
  { pc : mainpc;
    workers : list goroutine;
    wg : nat;
    closer : barrier;
    closed : bool;
    imageSet : gset string;
    panicked : bool }.

(** One step of one goroutine.  The channel has no buffer: a send and
    its receive are one step, taken when the calling goroutine is at the
    head of its receiving loop.  A send on the closed channel, a
    [wg.Done()] on a zero counter and a second [close] panic. *)
Inductive step (pods : list v1.Pod) : State -> State -> Prop :=
| step_add i ws n b cl set :
    i < length pods ->
    step pods
      {| pc := Add i; workers := ws; wg := n; closer := b; closed := cl;
         imageSet := set; panicked := false |}
      {| pc := Go i; workers := ws; wg := S n; closer := b; closed := cl;
         imageSet := set; panicked := false |}
| step_go i pod ws n b cl set :
    pods !! i = Some pod ->
    step pods
      {| pc := Go i; workers := ws; wg := n; closer := b; closed := cl;
         imageSet := set; panicked := false |}
      {| pc := Add (S i);
         workers := ws ++ [Run (v1.Containers (v1.Spec pod))];
         wg := n; closer := b; closed := cl;
         imageSet := set; panicked := false |}
| step_closer ws n cl set :
    step pods
      {| pc := Add (length pods); workers := ws; wg := n;
         closer := NotStarted; closed := cl;
         imageSet := set; panicked := false |}
      {| pc := Range; workers := ws; wg := n;
         closer := Waiting; closed := cl;
         imageSet := set; panicked := false |}
| step_skip i c cs p ws n b cl set :
    ws !! i = Some (Run (c :: cs)) ->
    v1.Image c = "" ->
    step pods
      {| pc := p; workers := ws; wg := n; closer := b; closed := cl;
         imageSet := set; panicked := false |}
      {| pc := p; workers := <[i := Run cs]> ws; wg := n; closer := b;
         closed := cl; imageSet := set; panicked := false |}
| step_send i c cs ws n b set :
    ws !! i = Some (Run (c :: cs)) ->
    v1.Image c <> "" ->
    step pods
      {| pc := Range; workers := ws; wg := n; closer := b; closed := false;
         imageSet := set; panicked := false |}
      {| pc := Store (v1.Image c); workers := <[i := Run cs]> ws; wg := n;
         closer := b; closed := false; imageSet := set;
         panicked := false |}
| step_send_closed i c cs p ws n b set :
    ws !! i = Some (Run (c :: cs)) ->
    v1.Image c <> "" ->
    step pods
      {| pc := p; workers := ws; wg := n; closer := b; closed := true;
         imageSet := set; panicked := false |}
      {| pc := p; workers := ws; wg := n; closer := b; closed := true;
         imageSet := set; panicked := true |}
| step_store image ws n b cl set :
    step pods
      {| pc := Store image; workers := ws; wg := n; closer := b;
         closed := cl; imageSet := set; panicked := false |}
      {| pc := Range; workers := ws; wg := n; closer := b; closed := cl;
         imageSet := {[ image ]} ∪ set; panicked := false |}
| step_done i p ws n b cl set :
    ws !! i = Some (Run []) ->
    step pods
      {| pc := p; workers := ws; wg := S n; closer := b; closed := cl;
         imageSet := set; panicked := false |}
      {| pc := p; workers := <[i := Ret]> ws; wg := n; closer := b;
         closed := cl; imageSet := set; panicked := false |}
| step_done_negative i p ws b cl set :
    ws !! i = Some (Run []) ->
    step pods
      {| pc := p; workers := ws; wg := 0; closer := b; closed := cl;
         imageSet := set; panicked := false |}
      {| pc := p; workers := ws; wg := 0; closer := b; closed := cl;
         imageSet := set; panicked := true |}
| step_wait p ws cl set :
    step pods
      {| pc := p; workers := ws; wg := 0; closer := Waiting; closed := cl;
         imageSet := set; panicked := false |}
      {| pc := p; workers := ws; wg := 0; closer := Closing; closed := cl;
         imageSet := set; panicked := false |}
| step_close p ws n set :
    step pods
      {| pc := p; workers := ws; wg := n; closer := Closing;
         closed := false; imageSet := set; panicked := false |}
      {| pc := p; workers := ws; wg := n; closer := Closed;
         closed := true; imageSet := set; panicked := false |}
| step_close_closed p ws n set :
    step pods
      {| pc := p; workers := ws; wg := n; closer := Closing;
         closed := true; imageSet := set; panicked := false |}
      {| pc := p; workers := ws; wg := n; closer := Closing;
         closed := true; imageSet := set; panicked := true |}
| step_range_end ws n b set :
    step pods
      {| pc := Range; workers := ws; wg := n; closer := b; closed := true;
         imageSet := set; panicked := false |}
      {| pc := Return; workers := ws; wg := n; closer := b; closed := true;
         imageSet := set; panicked := false |}.

(** The state on entry, the map and the channel made. *)
Definition init : State :=
  {| pc := Add 0; workers := []; wg := 0; closer := NotStarted;
     closed := false; imageSet := ∅; panicked := false |}.

(** The number of per-record goroutines in their loop. *)
Definition running (ws : list goroutine) : nat :=
  sum_list_with (fun w => match w with Run _ => 1 | Ret => 0 end) ws.

Definition todo (w : goroutine) : list v1.Container :=
  match w with Run cs => cs | Ret => [] end.

(** The image received and not yet stored. *)
Definition stored (p : mainpc) : gset string :=
  match p with Store image => {[ image ]} | _ => ∅ end.

(** What holds of every state of an execution. *)
Definition Inv (pods : list v1.Pod) (st : State) : Prop :=
  panicked st = false
  /\ match pc st with
     | Add i =>
         length (workers st) = i /\ i <= length pods
         /\ wg st = running (workers st) /\ closer st = NotStarted
     | Go i =>
         length (workers st) = i /\ i < length pods
         /\ wg st = S (running (workers st)) /\ closer st = NotStarted
     | _ =>
         length (workers st) = length pods
         /\ wg st = running (workers st) /\ closer st <> NotStarted
     end
  /\ (closer st = Closing \/ closer st = Closed ->
      running (workers st) = 0)
  /\ (closed st = true <-> closer st = Closed)
  /\ (pc st = Return -> closed st = true)
  /\ imageSet st ∪ stored (pc st)
     ∪ list_to_set (scan.pending (todo <$> workers st))
     ∪ list_to_set (scan.scanned (drop (length (workers st)) pods))
     = list_to_set (scan.scanned pods).

(** The number of steps that a goroutine in its loop has still to take,
    the receptions of what it sends counted with it: one for each
    container, one more for each image sent, and one to return. *)
Definition cost (cs : list v1.Container) : nat :=
  S (length cs + length (scan.images_of cs)).

(** The number of steps left to a state. *)
Definition measure (pods : list v1.Pod) (st : State) : nat :=
  match pc st with
  | Add i =>
      2 + sum_list_with
            (fun pod => 2 + cost (v1.Containers (v1.Spec pod)))
            (drop i pods)
  | Go i =>
      1 + sum_list_with
            (fun pod => 2 + cost (v1.Containers (v1.Spec pod)))
            (drop i pods)
  | Range => 1
  | Store _ => 2
  | Return => 0
  end
  + sum_list_with (fun w => match w with Run cs => cost cs | Ret => 0 end)
      (workers st)
  + match closer st with
    | NotStarted | Waiting => 2
    | Closing => 1
    | Closed => 0
    end.

End fanout.

(** ** Packages [slices] and [fmt] of the Go library *)

Module slices.

(** The order of Go strings: bytewise lexicographic. *)
Definition string_le (s1 s2 : string) : Prop := String.leb s1 s2 = true.

Definition string_lt (s1 s2 : string) : Prop := String.ltb s1 s2 = true.

#[global] Instance string_le_dec : RelDecision string_le :=
  fun s1 s2 => decide (String.leb s1 s2 = true).

(** [slices.Sort] on strings: the rearrangement of the slice in
    ascending order. *)
Definition Sort (x : list string) : list string := merge_sort string_le x.

End slices.

Module fmt.

(** The text that [fmt.Println] writes for a slice of strings, without
    the newline: the elements separated by one space, in brackets. *)
Definition Sprint (a : list string) : string :=
  "[" +:+ gostrings.Join a " " +:+ "]".

End fmt.

(** ** Package [main] *)

Module cmd.

(** How the process ends. *)
Inductive termination (error : Type) : Type :=
| Returned
| Exited (code : Z)
| Panicked (err : error).
Arguments Returned {error}.
Arguments Exited {error} code.
Arguments Panicked {error} err.

Section main.

(** Beside what [NewK8SOutCli] takes: the [List] call made through a
    client, the text of an error, and [json.Marshal] on a slice of
    strings.  The input of [main] is the value of the [output] flag. *)
Context {Ctx Config Clientset error : Type}.
Variable Background : Ctx.
Variable HomeDir : string.
Variable Join : list string -> string.
Variable environ : gmap string string.
Variable errors_New : string -> error.
Variable BuildConfigFromFlags : string -> string -> result error Config.
Variable NewForConfig : Config -> result error Clientset.
Variable List :
  k8s.K8SOutCli Ctx Clientset -> nat -> metav1.ListOptions ->
  result error v1.PodList.
Variable Error : error -> string.
Variable json_Marshal : list string -> result error string.

(** The lines written to the standard output, and how the process
    ends. *)
Definition main (output : string) : list string * termination error :=
  match k8s.NewK8SOutCli Background HomeDir Join environ errors_New
          BuildConfigFromFlags NewForConfig (Some Background) with
  | Err err => ([], Panicked err)
  | Ok k =>
      match k8s.GetClusterImagesV1 (List k) with
      | (_, Some err) => ([Error err], Exited 1)
      | (images, None) =>
          let images := slices.Sort images in
          if decide (output = "json") then
            match json_Marshal images with
            | Err err => (["Error: " +:+ Error err], Returned)
            | Ok jsonData => ([jsonData], Returned)
            end
          else if decide (output = "raw") then
            ([fmt.Sprint images], Returned)
          else ([], Returned)
      end
  end.

End main.

End cmd.

(** ** Sample inputs *)

Module sample.

Definition pod (images : list string) : v1.Pod :=
  {| v1.Spec := {| v1.Containers := v1.Build_Container <$> images |} |}.

Definition page (pods : list (list string)) (continue : string)
  : v1.PodList :=
  {| v1.Items := pod <$> pods; v1.Continue := continue |}.

(** Five records that all run ["x:1"], among other images. *)
Definition five : v1.PodList :=
  page [["x:1"; "y:2"]; ["x:1"]; [""; "x:1"]; ["z"; "x:1"; "y:2"]; ["x:1"]] "".

(** A source whose first page announces a second one, and whose second
    call fails. *)
Definition interrupted (calls : nat) (opts : metav1.ListOptions)
  : result string v1.PodList :=
  match calls with
  | 0 => Ok (page [["a:1"; "b"]; ["a:1"]] "next")
  | _ => Err "connection refused"
  end.

(** A source of two pages, each announcing another, whose third call
    fails. *)
Definition two_then_fail (calls : nat) (opts : metav1.ListOptions)
  : result string v1.PodList :=
  match calls, metav1.Continue opts with
  | 0, "" => Ok (page [["a:1"; "b"]; ["a:1"]] "p2")
  | 1, "p2" => Ok (page [["c:3"]; []] "p3")
  | _, _ => Err "connection refused"
  end.

(** A source whose every call fails. *)
Definition unreachable (calls : nat) (opts : metav1.ListOptions)
  : result string v1.PodList :=
  Err "connection refused".

Definition never_done (n : nat) : bool := false.

Definition always_done (n : nat) : bool := true.

(** A source of three pages, each served for the token of the page
    before it. *)
Definition page1 : v1.PodList := page [["a:1"; "b"]; ["a:1"]] "p2".
Definition page2 : v1.PodList := page [["c:3"]; []] "p3".
Definition page3 : v1.PodList := page [["b"; "d"]] "".

Definition three_pages (calls : nat) (opts : metav1.ListOptions)
  : result string v1.PodList :=
  match calls, metav1.Continue opts with
  | 0, "" => Ok page1
  | 1, "p2" => Ok page2
  | 2, "p3" => Ok page3
  | _, _ => Err "unexpected call"
  end.

(** A context that is done from the publication of record number [k]
    on. *)
Definition done_from (k n : nat) : bool := Nat.leb k n.

(** An environment that names a kubeconfig file, and one that names
    none. *)
Definition kube_env : gmap string string :=
  {[ "KUBE_CONFIG" := "/etc/kube.conf" ]}.

Definition empty_kube_env : gmap string string :=
  {[ "KUBE_CONFIG" := "" ]}.

Definition home_config (elem : list string) : string :=
  gostrings.Join elem "/".

(** A configuration loader that accepts one path only. *)
Definition load_config (masterUrl kubeconfigPath : string)
  : result string string :=
  if decide (kubeconfigPath = "/etc/kube.conf") then Ok kubeconfigPath
  else Err "no such file".

(** A source that always announces one more page. *)
Definition endless (calls : nat) (opts : metav1.ListOptions)
  : result string v1.PodList :=
  Ok (page [["a:1"]] "again").

End sample.

(** * Properties *)

(** ** [strings.Split] *)

Section Split_facts.

Import gostrings.

Lemma Split_not_nil (s : string) (sep : ascii) : Split s sep <> [].
Proof.
  destruct s as [|c s]; simpl; [done|].
  destruct (Ascii.eqb c sep); [done|].
  by destruct (Split s sep).
Qed.

Lemma Split_absent (s : string) (sep : ascii) :
  Contains s sep = false -> Split s sep = [s].
Proof.
  induction s as [|c s IH]; simpl; [done|].
  destruct (Ascii.eqb c sep); simpl; [done|].
  intros H. by rewrite (IH H).
Qed.

Lemma Split_first (pre rest : string) (sep : ascii) :
  Contains pre sep = false ->
  Split (pre +:+ String sep rest) sep = pre :: Split rest sep.
Proof.
  induction pre as [|c pre IH]; simpl.
  - intros _. by rewrite Ascii.eqb_refl.
  - destruct (Ascii.eqb c sep); simpl; [done|].
    intros H. by rewrite (IH H).
Qed.

Lemma Split_length_1 (s : string) (sep : ascii) :
  length (Split s sep) = 1 <-> Contains s sep = false.
Proof.
  split; [|intros H; by rewrite Split_absent].
  induction s as [|c s IH]; simpl; [done|].
  destruct (Ascii.eqb c sep); simpl.
  - pose proof (Split_not_nil s sep). by destruct (Split s sep).
  - destruct (Split s sep) as [|hd tl] eqn:E; [by destruct (Split_not_nil s sep)|].
    simpl in *. done.
Qed.

(** The three facts that determine [Split]: it returns one substring
    more than there are separators, no substring contains the
    separator, and joining the substrings gives the string back. *)
Lemma Split_length (s : string) (sep : ascii) :
  length (Split s sep) = S (Count s sep).
Proof.
  induction s as [|c s IH]; simpl; [done|].
  destruct (Ascii.eqb c sep); simpl; [by rewrite IH|].
  destruct (Split s sep); simpl in *; done.
Qed.

Lemma Split_pieces (s : string) (sep : ascii) :
  Forall (fun piece => Contains piece sep = false) (Split s sep).
Proof.
  induction s as [|c s IH]; simpl; [by repeat constructor|].
  destruct (Ascii.eqb c sep) eqn:E; [by constructor|].
  destruct (Split s sep) as [|hd tl];
    [repeat constructor; simpl; by rewrite E|].
  inversion_clear IH as [|? ? Hhd Htl].
  constructor; [|done]. simpl. by rewrite E, Hhd.
Qed.

Lemma Join_Split (s : string) (sep : ascii) : Join (Split s sep) sep = s.
Proof.
  induction s as [|c s IH]; simpl; [done|].
  destruct (Ascii.eqb c sep) eqn:E.
  - apply Ascii.eqb_eq in E as ->.
    pose proof (Split_not_nil s sep).
    destruct (Split s sep) as [|hd tl]; [done|]. simpl in *. by rewrite IH.
  - pose proof (Split_not_nil s sep).
    destruct (Split s sep) as [|hd [|hd' tl]]; [done|..]; simpl in *;
      by rewrite <-IH.
Qed.

(** A string in which the separator occurs splits at its first
    occurrence. *)
Lemma Contains_first (s : string) (sep : ascii) :
  Contains s sep = true ->
  exists pre rest, Contains pre sep = false /\ s = pre +:+ String sep rest.
Proof.
  induction s as [|c s IH]; simpl; [done|].
  destruct (Ascii.eqb c sep) eqn:E; simpl.
  - intros _. apply Ascii.eqb_eq in E as ->. by exists "", s.
  - intros (pre & rest & Hpre & ->)%IH.
    exists (String c pre), rest. simpl. by rewrite E.
Qed.

Lemma Contains_app_sep (pre rest : string) (sep : ascii) :
  Contains (pre +:+ String sep rest) sep = true.
Proof.
  induction pre as [|c pre IH]; simpl.
  - by rewrite Ascii.eqb_refl.
  - rewrite IH. by destruct (Ascii.eqb c sep).
Qed.

(** The first substring is empty only for the empty string and for
    a string that starts with the separator. *)
Lemma Split_head_empty (s : string) (sep : ascii) (tl : list string) :
  Split s sep = "" :: tl -> s = "" \/ exists s', s = String sep s'.
Proof.
  destruct s as [|c s]; simpl; [by left|].
  destruct (Ascii.eqb c sep) eqn:E.
  - apply Ascii.eqb_eq in E as ->. right. by exists s.
  - by destruct (Split s sep).
Qed.

(** The decomposition at the first separator is unique. *)
Lemma first_sep_unique (pre pre' rest rest' : string) (sep : ascii) :
  Contains pre sep = false -> Contains pre' sep = false ->
  pre +:+ String sep rest = pre' +:+ String sep rest' ->
  pre = pre' /\ rest = rest'.
Proof.
  revert pre'. induction pre as [|c pre IH]; intros [|c' pre']; simpl.
  - intros _ _ [= ->]. done.
  - intros _ H [= <- _]. rewrite Ascii.eqb_refl in H. done.
  - intros H _ [= -> _]. rewrite Ascii.eqb_refl in H. done.
  - intros H H' [= -> Heq].
    apply orb_false_iff in H as [_ H], H' as [_ H'].
    destruct (IH _ H H' Heq) as [-> ->]. done.
Qed.

End Split_facts.

(** ** The image name parser *)

Section parser_facts.

Import gostrings image.

Lemma getFromImageName_absent (i : Image) (name : string) :
  Contains name ":" = false ->
  getFromImageName i name = Some {| Repository := name; Tag := "latest" |}.
Proof.
  intros H. unfold getFromImageName.
  rewrite decide_True; [done|]. by apply Split_length_1.
Qed.

Lemma getFromImageName_present (i : Image) (pre rest s1 : string)
    (tl : list string) :
  Contains pre ":" = false ->
  Split rest ":" = s1 :: tl ->
  getFromImageName i (pre +:+ ":" +:+ rest)
  = Some {| Repository := pre; Tag := s1 |}.
Proof.
  intros Hpre Hrest. unfold getFromImageName.
  change (":" +:+ rest) with (String ":" rest).
  rewrite Split_first, Hrest by done.
  rewrite decide_False by done. done.
Qed.

(** No index expression of the parser panics. *)
Lemma getFromImageName_total (i : Image) (name : string) :
  is_Some (getFromImageName i name).
Proof.
  destruct (Contains name ":") eqn:E.
  - apply Contains_first in E as (pre & rest & Hpre & ->).
    destruct (Split rest ":") as [|s1 tl] eqn:Hrest;
      [by destruct (Split_not_nil rest ":")|].
    change (String ":" rest) with (":" +:+ rest).
    erewrite getFromImageName_present; done.
  - rewrite getFromImageName_absent; done.
Qed.

(** C1, as the code has it: when [raw] contains a [":"], the repository
    is the portion of [raw] before the first [":"], and the tag is the
    portion between that first [":"] and the next one, or the end of
    [raw] when there is no other; what follows a second [":"] is in
    neither field. *)
Theorem getFromImageName_second_segment
    (i : Image) (pre mid rest : string) :
  Contains pre ":" = false ->
  Contains mid ":" = false ->
  getFromImageName i (pre +:+ ":" +:+ mid)
  = Some {| Repository := pre; Tag := mid |}
  /\ getFromImageName i (pre +:+ ":" +:+ mid +:+ ":" +:+ rest)
     = Some {| Repository := pre; Tag := mid |}.
Proof.
  intros Hpre Hmid. split.
  - apply getFromImageName_present with (tl := []); [done|].
    by apply Split_absent.
  - apply getFromImageName_present with (tl := Split rest ":"); [done|].
    change (":" +:+ rest) with (String ":" rest).
    by apply Split_first.
Qed.

Lemma getFromImageName_second_segment_witness :
  getFromImageName zero ("host" +:+ ":" +:+ "5000/redis")
  = Some {| Repository := "host"; Tag := "5000/redis" |}
  /\ getFromImageName zero ("host" +:+ ":" +:+ "5000/redis" +:+ ":" +:+ "7")
     = Some {| Repository := "host"; Tag := "5000/redis" |}.
Proof.
  apply (getFromImageName_second_segment zero "host" "5000/redis" "7");
    reflexivity.
Defined.

(** C1 as stated fails: the tag of ["a:b:c"] is ["b"], not ["b:c"]. *)
Lemma getFromImageName_drops_after_second_colon :
  ~ (forall (i : Image) (pre rest : string),
        Contains pre ":" = false ->
        getFromImageName i (pre +:+ ":" +:+ rest)
        = Some {| Repository := pre; Tag := rest |}).
Proof.
  intros H. specialize (H zero "a" "b:c" eq_refl). discriminate H.
Qed.

(** C3, as the code has it: the parser always returns; the tag is
    ["latest"] when [raw] contains no [":"]; and the tag is empty
    exactly when the first [":"] of [raw] ends [raw] or is followed at
    once by another [":"]. *)
Theorem getFromImageName_tag_empty_iff (i : Image) (raw : string) :
  exists img,
    getFromImageName i raw = Some img
    /\ (Contains raw ":" = false -> Tag img = "latest")
    /\ (Tag img = "" <->
        exists pre rest,
          Contains pre ":" = false /\ raw = pre +:+ ":" +:+ rest
          /\ (rest = "" \/ exists rest', rest = ":" +:+ rest')).
Proof.
  destruct (Contains raw ":") eqn:E.
  - apply Contains_first in E as (pre & rest & Hpre & ->).
    destruct (Split rest ":") as [|s1 tl] eqn:Hrest;
      [by destruct (Split_not_nil rest ":")|].
    exists {| Repository := pre; Tag := s1 |}.
    split; [by apply getFromImageName_present with (tl := tl)|].
    split; [done|]. simpl. split.
    + intros ->. exists pre, rest. split; [done|]. split; [done|].
      by apply Split_head_empty in Hrest.
    + intros (pre' & rest' & Hpre' & Heq & Hcase).
      apply first_sep_unique in Heq as [_ ->]; [|done..].
      destruct Hcase as [->|[r ->]]; simpl in Hrest.
      * by injection Hrest as <- _.
      * by injection Hrest as <- _.
  - exists {| Repository := raw; Tag := "latest" |}.
    split; [by apply getFromImageName_absent|].
    split; [done|]. simpl. split; [done|].
    intros (pre & rest & _ & -> & _).
    change (":" +:+ rest) with (String ":" rest) in E.
    by rewrite Contains_app_sep in E.
Qed.

Lemma getFromImageName_tag_empty_iff_witness :
  exists img,
    getFromImageName zero "redis:" = Some img
    /\ (Contains "redis:" ":" = false -> Tag img = "latest")
    /\ (Tag img = "" <->
        exists pre rest,
          Contains pre ":" = false /\ "redis:" = pre +:+ ":" +:+ rest
          /\ (rest = "" \/ exists rest', rest = ":" +:+ rest')).
Proof. apply (getFromImageName_tag_empty_iff zero "redis:"). Defined.

(** C3 as stated fails: the tag of ["redis:"] is the empty string. *)
Lemma getFromImageName_empty_tag :
  ~ (forall (i : Image) (raw : string),
        exists img, getFromImageName i raw = Some img /\ Tag img <> "").
Proof.
  intros H. destruct (H zero "redis:") as (img & Himg & Htag).
  injection Himg as <-. by apply Htag.
Qed.

(** C6: the three parser laws: ["redis"] parses to repository ["redis"]
    and tag ["latest"], ["redis:7"] to repository ["redis"] and tag
    ["7"], and the empty string is accepted and parses to an empty
    repository and tag ["latest"]. *)
Theorem NewImage_laws :
  NewImage "redis" = Some {| Repository := "redis"; Tag := "latest" |}
  /\ NewImage "redis:7" = Some {| Repository := "redis"; Tag := "7" |}
  /\ NewImage "" = Some {| Repository := ""; Tag := "latest" |}.
Proof. repeat split. Qed.

End parser_facts.

(** ** Environment lookups *)

Section env_facts.

Import env.

(** C10: the alias table is applied to the value that
    [GetEnvOrDefault] resolves, the fallback included: when the
    variable is unset and [other] is a key of the table the result is
    the table's value for [other]; when the resolved value is not a
    key the result is the resolved value. *)
Theorem LookupEnvOrDefault_alias
    (environ m : gmap string string) (name other : string) :
  (environ !! name = None ->
   forall value, m !! other = Some value ->
     LookupEnvOrDefault environ m name other = value)
  /\ (m !! GetEnvOrDefault environ name other = None ->
      LookupEnvOrDefault environ m name other
      = GetEnvOrDefault environ name other)
  /\ LookupEnvOrDefault environ m name other
     = default (GetEnvOrDefault environ name other)
         (m !! GetEnvOrDefault environ name other).
Proof.
  unfold LookupEnvOrDefault, GetEnvOrDefault, LookupEnv.
  split; [|split].
  - intros -> value ->. done.
  - intros ->. done.
  - by destruct (m !! _).
Qed.

Lemma LookupEnvOrDefault_alias_witness :
  LookupEnvOrDefault ∅ {[ "dev" := "development" ]} "APP_ENV" "dev"
  = "development"
  /\ LookupEnvOrDefault {[ "APP_ENV" := "staging" ]}
       {[ "dev" := "development" ]} "APP_ENV" "dev"
     = "staging".
Proof.
  split.
  - exact (proj1 (LookupEnvOrDefault_alias
                    ∅ {[ "dev" := "development" ]} "APP_ENV" "dev")
             eq_refl "development" eq_refl).
  - exact (proj1 (proj2 (LookupEnvOrDefault_alias
                           {[ "APP_ENV" := "staging" ]}
                           {[ "dev" := "development" ]} "APP_ENV" "dev"))
             eq_refl).
Defined.

End env_facts.

(** ** Construction of the client *)

Section NewK8SOutCli_facts.

Import k8s.

Context {Ctx Config Clientset error : Type}.
Variable Background : Ctx.
Variable HomeDir : string.
Variable Join : list string -> string.
Variable environ : gmap string string.
Variable errors_New : string -> error.
Variable BuildConfigFromFlags : string -> string -> result error Config.
Variable NewForConfig : Config -> result error Clientset.

(** C9: a nil context is accepted: the client built from it holds
    [context.Background()], the client built from a non-nil context
    holds that context, and whether the constructor fails does not
    depend on the context it is given. *)
Theorem NewK8SOutCli_ctx :
  (forall k,
      NewK8SOutCli Background HomeDir Join environ errors_New
        BuildConfigFromFlags NewForConfig None = Ok k ->
      ctx k = Some Background)
  /\ (forall c k,
        NewK8SOutCli Background HomeDir Join environ errors_New
          BuildConfigFromFlags NewForConfig (Some c) = Ok k ->
        ctx k = Some c)
  /\ (forall c,
        is_Err (NewK8SOutCli Background HomeDir Join environ errors_New
                  BuildConfigFromFlags NewForConfig None)
        = is_Err (NewK8SOutCli Background HomeDir Join environ errors_New
                    BuildConfigFromFlags NewForConfig (Some c))).
Proof.
  unfold NewK8SOutCli.
  destruct (getKubeConfig _ _ _ _) as [kubeconfig|err];
    [|by repeat split].
  destruct (BuildConfigFromFlags "" kubeconfig) as [config|err];
    [|by repeat split].
  destruct (NewForConfig config) as [cs|err]; [|by repeat split].
  repeat split.
  - by intros k [= <-].
  - by intros c k [= <-].
Qed.

End NewK8SOutCli_facts.

Lemma NewK8SOutCli_ctx_witness :
  let new := k8s.NewK8SOutCli (Config := string) (error := string)
               0 "/root" (fun l => "/root/.kube/config") ∅ id
               (fun _ path => Ok path) (fun _ => Ok tt) in
  new None = Ok {| k8s.ctx := Some 0; k8s.clientset := Some tt |}
  /\ k8s.ctx {| k8s.ctx := Some 0; k8s.clientset := Some tt |} = Some 0
  /\ new (Some 7) = Ok {| k8s.ctx := Some 7; k8s.clientset := Some tt |}
  /\ k8s.ctx {| k8s.ctx := Some 7; k8s.clientset := Some tt |} = Some 7.
Proof.
  intros new.
  pose proof (NewK8SOutCli_ctx (Config := string) (error := string)
                0 "/root" (fun l => "/root/.kube/config") ∅ id
                (fun _ path => Ok path) (fun _ => Ok tt)) as (H0 & H1 & _).
  split; [reflexivity|]. split; [exact (H0 _ eq_refl)|].
  split; [reflexivity|]. exact (H1 7 _ eq_refl).
Defined.

(** ** Scanning *)

Section scan_facts.

Import scan.

Lemma foldl_containers_of {S : Type} (f : S -> v1.Container -> S)
    (pods : list v1.Pod) (st : S) :
  foldl (fun st pod => foldl f st (v1.Containers (v1.Spec pod))) st pods
  = foldl f st (containers_of pods).
Proof.
  revert st. induction pods as [|pod pods IH]; intros st; [done|].
  unfold containers_of. simpl. rewrite foldl_app. apply IH.
Qed.

Lemma elem_of_scanned (pods : list v1.Pod) (x : string) :
  x ∈ scanned pods <->
  x <> "" /\ exists pod c, pod ∈ pods /\ c ∈ v1.Containers (v1.Spec pod)
                           /\ v1.Image c = x.
Proof.
  unfold scanned, images_of, containers_of.
  rewrite list_elem_of_filter, list_elem_of_fmap.
  setoid_rewrite list_elem_of_bind. naive_solver.
Qed.

Lemma empty_not_scanned (pods : list v1.Pod) : "" ∉ scanned pods.
Proof. rewrite elem_of_scanned. naive_solver. Qed.

Lemma elem_of_first_seen (earlier l : list string) (x : string) :
  x ∈ first_seen earlier l <-> x ∈ l /\ x ∉ earlier.
Proof.
  revert earlier. induction l as [|y l IH]; intros earlier; simpl.
  - set_solver.
  - case_decide; rewrite ?elem_of_cons, IH, !elem_of_cons;
      destruct (decide (x = y)); naive_solver.
Qed.

Lemma NoDup_first_seen (earlier l : list string) :
  NoDup (first_seen earlier l).
Proof.
  revert earlier. induction l as [|y l IH]; intros earlier; simpl.
  - constructor.
  - case_decide; [apply IH|].
    constructor; [|apply IH].
    rewrite elem_of_first_seen. set_solver.
Qed.

Lemma sublist_first_seen (earlier l : list string) :
  first_seen earlier l `sublist_of` l.
Proof.
  revert earlier. induction l as [|y l IH]; intros earlier; simpl.
  - constructor.
  - case_decide; [apply sublist_cons|apply sublist_skip]; apply IH.
Qed.

(** The head of the input is kept, and what follows a kept identifier
    is what is seen first in the rest of the input. *)
Lemma first_seen_app (earlier l1 l2 : list string) :
  first_seen earlier (l1 ++ l2)
  = first_seen earlier l1 ++ first_seen (reverse l1 ++ earlier) l2.
Proof.
  revert earlier. induction l1 as [|y l1 IH]; intros earlier; simpl.
  - done.
  - rewrite reverse_cons, <-app_assoc. simpl.
    case_decide; simpl; by rewrite IH.
Qed.

End scan_facts.

(** ** The loops of the collectors *)

Section loop_facts.

Import k8s scan.

(** The invariant of the loops of [getImagesV1]: the presence set
    holds the identifiers seen so far, the output those kept. *)
Lemma V1_container_foldl (cs : list v1.Container) (earlier : list string)
    (set : gset string) (out : list string) :
  set = list_to_set earlier ->
  foldl V1_container (set, out) cs
  = (set ∪ list_to_set (images_of cs),
     out ++ first_seen earlier (images_of cs)).
Proof.
  revert earlier set out.
  unfold images_of.
  induction cs as [|c cs IH]; intros earlier set out Hset.
  - simpl. rewrite app_nil_r. f_equal. set_solver.
  - cbn [foldl]. rewrite fmap_cons, filter_cons.
    unfold V1_container at 2.
    destruct (decide (v1.Image c <> "")) as [Hne|He]; [|by apply IH].
    cbn [first_seen].
    destruct (decide (v1.Image c ∈ set)) as [Hin|Hnin].
    + rewrite decide_True by set_solver.
      rewrite (IH (v1.Image c :: earlier)) by set_solver.
      f_equal. set_solver.
    + rewrite decide_False by set_solver.
      rewrite (IH (v1.Image c :: earlier)) by set_solver.
      rewrite <-app_assoc. f_equal. set_solver.
Qed.

Lemma getImagesV1_first_seen (pods : v1.PodList) :
  getImagesV1 pods = first_seen [] (scanned (v1.Items pods)).
Proof.
  unfold getImagesV1, V1_pod. rewrite foldl_containers_of.
  by rewrite (V1_container_foldl _ []).
Qed.

Lemma add_image_foldl (cs : list v1.Container) (set : gset string) :
  foldl add_image set cs = set ∪ list_to_set (images_of cs).
Proof.
  unfold images_of.
  revert set. induction cs as [|c cs IH]; intros set; simpl.
  - set_solver.
  - rewrite filter_cons, IH. unfold add_image.
    destruct (decide (v1.Image c <> "")); set_solver.
Qed.

Lemma add_pod_foldl (pods : list v1.Pod) :
  foldl add_pod ∅ pods = list_to_set (scanned pods).
Proof.
  unfold add_pod. rewrite foldl_containers_of, add_image_foldl.
  unfold scanned. set_solver.
Qed.

(** *** The fan-out collector *)

Lemma pending_insert (ws : list (list v1.Container)) (i : nat)
    (c : v1.Container) (cs : list v1.Container) :
  ws !! i = Some (c :: cs) ->
  list_to_set (pending ws)
  = add_image ∅ c ∪ list_to_set (pending (<[i := cs]> ws)).
Proof.
  intros Hi. unfold pending, images_of.
  rewrite insert_take_drop by (by eapply lookup_lt_Some).
  rewrite <-(take_drop_middle ws i (c :: cs) Hi) at 1.
  rewrite !join_app. cbn [mjoin list_join].
  rewrite !fmap_app, !filter_app, !fmap_cons, !filter_cons.
  rewrite !list_to_set_app_L. unfold add_image.
  destruct (decide (v1.Image c <> "")); set_solver.
Qed.

Lemma V3step_invariant (st st' : V3State) :
  V3step st st' ->
  imageSet st' ∪ list_to_set (pending (workers st'))
  = imageSet st ∪ list_to_set (pending (workers st)).
Proof.
  intros [ws set i c cs Hi He|ws set i c cs Hi Hne]; cbn [workers imageSet];
    rewrite (pending_insert ws i c cs Hi); unfold add_image;
    [rewrite decide_False by (by intros [])
    |rewrite decide_True by done]; set_solver.
Qed.

Lemma V3steps_invariant (st st' : V3State) :
  rtc V3step st st' ->
  imageSet st' ∪ list_to_set (pending (workers st'))
  = imageSet st ∪ list_to_set (pending (workers st)).
Proof.
  induction 1 as [|st st1 st2 Hstep _ IH]; [done|].
  by rewrite IH, (V3step_invariant _ _ Hstep).
Qed.

Lemma V3done_pending (st : V3State) :
  V3done st -> pending (workers st) = [].
Proof.
  unfold V3done. induction 1 as [|w ws -> _ IH]; [done|]. done.
Qed.

Lemma V3init_pending (pods : v1.PodList) :
  pending (workers (V3init pods)) = scanned (v1.Items pods).
Proof.
  unfold V3init, pending, scanned, containers_of. simpl.
  by rewrite list_join_bind, list_fmap_bind.
Qed.

(** Every complete execution ends with the same presence set. *)
Lemma V3_imageSet (pods : v1.PodList) (st : V3State) :
  rtc V3step (V3init pods) st -> V3done st ->
  imageSet st = list_to_set (scanned (v1.Items pods)).
Proof.
  intros Hsteps Hdone.
  pose proof (V3steps_invariant _ _ Hsteps) as Hinv.
  rewrite (V3done_pending _ Hdone), V3init_pending in Hinv.
  simpl in Hinv. set_solver.
Qed.

End loop_facts.

(** ** Schedules of the fan-out collector *)

Section schedule_facts.

Import k8s.

Lemma V3exec1_steps (st : V3State) (i : nat) : rtc V3step st (V3exec1 st i).
Proof.
  destruct st as [ws set]. unfold V3exec1. cbn [workers imageSet].
  destruct (ws !! i) as [[|c cs]|] eqn:Hi; [done| |done].
  apply rtc_once. unfold add_image.
  destruct (decide (v1.Image c <> "")) as [Hne|He].
  - by apply (V3_send ws set i c cs).
  - apply (V3_skip ws set i c cs); [done|].
    by destruct (decide (v1.Image c = "")).
Qed.

(** Every schedule is an execution. *)
Lemma V3exec_steps (sched : list nat) (st : V3State) :
  rtc V3step st (V3exec sched st).
Proof.
  revert st. induction sched as [|i sched IH]; intros st; [done|].
  etrans; [apply (V3exec1_steps st i)|apply IH].
Qed.

Lemma V3exec_cons (i : nat) (sched : list nat) (st : V3State) :
  V3exec (i :: sched) st = V3exec sched (V3exec1 st i).
Proof. done. Qed.

Lemma V3exec_app (sched1 sched2 : list nat) (st : V3State) :
  V3exec (sched1 ++ sched2) st = V3exec sched2 (V3exec sched1 st).
Proof. apply foldl_app. Qed.

(** Scheduling a goroutine once for each of its containers runs it to
    its end. *)
Lemma V3exec_replicate (w : list v1.Container)
    (ws : list (list v1.Container)) (set : gset string) (i : nat) :
  ws !! i = Some w ->
  V3exec (replicate (length w) i) {| workers := ws; imageSet := set |}
  = {| workers := <[i := []]> ws; imageSet := foldl add_image set w |}.
Proof.
  revert ws set. induction w as [|c cs IH]; intros ws set Hi.
  - simpl. by rewrite list_insert_id.
  - cbn [length replicate]. rewrite V3exec_cons.
    unfold V3exec1. cbn [workers imageSet]. rewrite Hi.
    cbn [foldl]. rewrite IH.
    + by rewrite list_insert_insert_eq.
    + apply list_lookup_insert_eq. by eapply lookup_lt_Some.
Qed.

Lemma V3exec_sequential_from (pre rest : list (list v1.Container))
    (set : gset string) :
  Forall (fun w => w = []) pre ->
  V3done
    (V3exec
       (mjoin (imap (fun i w => replicate (length w) (length pre + i)) rest))
       {| workers := pre ++ rest; imageSet := set |}).
Proof.
  revert pre set. induction rest as [|w rest IH]; intros pre set Hpre.
  - simpl. by rewrite app_nil_r.
  - rewrite imap_cons. cbn [mjoin list_join]. rewrite V3exec_app.
    rewrite V3exec_replicate
      by (by rewrite Nat.add_0_r, list_lookup_middle).
    rewrite Nat.add_0_r, insert_app_r_alt, Nat.sub_diag by done.
    cbn [insert list_insert].
    rewrite (cons_middle [] pre rest), (assoc_L (++) pre [[]] rest).
    rewrite (imap_ext _ (fun i w => replicate (length w)
                                      (length (pre ++ [[]]) + i))).
    + apply IH. apply Forall_app. by split; [|repeat constructor].
    + intros j x _. simpl. rewrite length_app. simpl. f_equal. lia.
Qed.

(** Running the goroutines one after the other is a complete
    execution. *)
Lemma V3exec_sequential (ws : list (list v1.Container)) (set : gset string) :
  V3done (V3exec (V3sequential ws) {| workers := ws; imageSet := set |}).
Proof. by apply (V3exec_sequential_from [] ws set). Qed.

End schedule_facts.

(** ** The collectors *)

Section collector_facts.

Import k8s scan.

Context {error : Type}.
Variable range_map : gset string -> list string.
Hypothesis range_map_perm : forall set, range_map set ≡ₚ elements set.

Lemma elem_of_range_map (set : gset string) (x : string) :
  x ∈ range_map set <-> x ∈ set.
Proof. by rewrite range_map_perm, elem_of_elements. Qed.

Lemma NoDup_range_map (set : gset string) : NoDup (range_map set).
Proof. rewrite range_map_perm. apply NoDup_elements. Qed.

Lemma range_map_empty : range_map ∅ = [].
Proof.
  apply Permutation_nil_r. by rewrite range_map_perm, elements_empty.
Qed.

Lemma list_to_set_range_map (set : gset string) :
  list_to_set (range_map set) = set.
Proof. apply set_eq. intros x. by rewrite elem_of_list_to_set, elem_of_range_map. Qed.

Lemma elem_of_getImagesV2 (podChan : list v1.Pod) (x : string) :
  x ∈ getImagesV2 range_map podChan <-> x ∈ scanned podChan.
Proof.
  unfold getImagesV2.
  by rewrite elem_of_range_map, add_pod_foldl, elem_of_list_to_set.
Qed.

Lemma elem_of_GetImagesV3 (pods : v1.PodList) (out : list string) (x : string) :
  GetImagesV3 range_map pods out ->
  x ∈ out <-> x ∈ scanned (v1.Items pods).
Proof.
  intros (st & Hsteps & Hdone & ->).
  by rewrite elem_of_range_map, (V3_imageSet pods st), elem_of_list_to_set.
Qed.

Lemma NoDup_GetImagesV3 (pods : v1.PodList) (out : list string) :
  GetImagesV3 range_map pods out -> NoDup out.
Proof. intros (st & _ & _ & ->). apply NoDup_range_map. Qed.

(** Every call of the fan-out collector returns: the goroutines can
    always be run to their end. *)
Lemma GetImagesV3_returns (pods : v1.PodList) :
  GetImagesV3 range_map pods
    (range_map (imageSet (V3exec (V3sequential (workers (V3init pods)))
                            (V3init pods)))).
Proof.
  eexists. split; [apply V3exec_steps|]. split; [|done].
  apply V3exec_sequential.
Qed.

End collector_facts.

Lemma count_occ_NoDup (l : list string) (x : string) :
  NoDup l -> x ∈ l -> count_occ string_dec l x = 1.
Proof.
  intros Hl%NoDup_ListNoDup Hx%list_elem_of_In.
  by apply (proj1 (NoDup_count_occ' string_dec l) Hl).
Qed.

(** ** The sequential collector *)

Section sequential_claims.

Import k8s scan.

(** C5: the sequential collector scans the item lists in their order
    and keeps an identifier at its first occurrence only: its output is
    the first-seen subsequence of the scanned identifiers, so it has the
    scanned identifiers without repetition, in scan order, and what
    precedes an identifier in the output is what was first seen before
    that identifier's first occurrence.  The output is a function of the
    input. *)
Theorem getImagesV1_first_seen_order (pods : v1.PodList) :
  getImagesV1 pods = first_seen [] (scanned (v1.Items pods))
  /\ getImagesV1 pods `sublist_of` scanned (v1.Items pods)
  /\ NoDup (getImagesV1 pods)
  /\ (forall x, x ∈ getImagesV1 pods <-> x ∈ scanned (v1.Items pods))
  /\ (forall l1 x l2,
        scanned (v1.Items pods) = l1 ++ x :: l2 -> x ∉ l1 ->
        exists out2, getImagesV1 pods = first_seen [] l1 ++ x :: out2).
Proof.
  rewrite getImagesV1_first_seen.
  split; [done|]. split; [apply sublist_first_seen|].
  split; [apply NoDup_first_seen|]. split.
  - intros x. rewrite elem_of_first_seen. set_solver.
  - intros l1 x l2 -> Hx. rewrite first_seen_app. cbn [first_seen].
    rewrite decide_False by (rewrite app_nil_r, elem_of_reverse; done).
    by eexists.
Qed.

Lemma getImagesV1_first_seen_order_witness :
  getImagesV1 sample.five = ["x:1"; "y:2"; "z"]
  /\ scanned (v1.Items sample.five)
     = ["x:1"; "y:2"; "x:1"; "x:1"; "z"; "x:1"; "y:2"; "x:1"]
  /\ exists out2, getImagesV1 sample.five = first_seen [] ["x:1"] ++ "y:2" :: out2.
Proof.
  split; [reflexivity|]. split; [reflexivity|].
  apply (proj2 (proj2 (proj2 (proj2
           (getImagesV1_first_seen_order sample.five))))
           ["x:1"] "y:2" ["x:1"; "x:1"; "z"; "x:1"; "y:2"; "x:1"]).
  - reflexivity.
  - by intros [=]%list_elem_of_singleton.
Defined.

End sequential_claims.

(** ** The three collectors compared *)

Section collector_claims.

Import k8s scan.

(** The sequential collector ranges over no map; the other two each
    range over their own. *)
Variable range_map2 range_map3 : gset string -> list string.
Hypothesis range_map2_perm : forall set, range_map2 set ≡ₚ elements set.
Hypothesis range_map3_perm : forall set, range_map3 set ≡ₚ elements set.

(** C4: on the same records the three collectors return the same set of
    identifiers; the fan-out collector does so in every execution, and
    it has one. *)
Theorem collectors_same_set (pods : v1.PodList) :
  (exists out3, GetImagesV3 range_map3 pods out3)
  /\ list_to_set (getImagesV1 pods)
     =@{gset string} list_to_set (getImagesV2 range_map2 (v1.Items pods))
  /\ forall out3, GetImagesV3 range_map3 pods out3 ->
       list_to_set out3 =@{gset string} list_to_set (getImagesV1 pods).
Proof.
  split; [eexists; apply GetImagesV3_returns|]. split.
  - apply set_eq. intros x. rewrite !elem_of_list_to_set.
    rewrite (elem_of_getImagesV2 _ range_map2_perm).
    rewrite getImagesV1_first_seen, elem_of_first_seen. set_solver.
  - intros out3 H3. apply set_eq. intros x. rewrite !elem_of_list_to_set.
    rewrite (elem_of_GetImagesV3 _ range_map3_perm _ _ _ H3).
    rewrite getImagesV1_first_seen, elem_of_first_seen. set_solver.
Qed.

(** C7: no collector returns an identifier twice; an identifier that
    is not empty and occurs in some record, in however many, occurs
    exactly once in the result of each collector. *)
Theorem collectors_no_duplicates (pods : v1.PodList) (out3 : list string) :
  GetImagesV3 range_map3 pods out3 ->
  (NoDup (getImagesV1 pods)
   /\ NoDup (getImagesV2 range_map2 (v1.Items pods))
   /\ NoDup out3)
  /\ forall (x : string) (pod : v1.Pod) (c : v1.Container),
       x <> "" -> pod ∈ v1.Items pods ->
       c ∈ v1.Containers (v1.Spec pod) -> v1.Image c = x ->
       count_occ string_dec (getImagesV1 pods) x = 1
       /\ count_occ string_dec (getImagesV2 range_map2 (v1.Items pods)) x = 1
       /\ count_occ string_dec out3 x = 1.
Proof.
  intros H3.
  assert (NoDup (getImagesV1 pods)) as H1
    by (rewrite getImagesV1_first_seen; apply NoDup_first_seen).
  pose proof (NoDup_range_map _ range_map2_perm
                (foldl add_pod ∅ (v1.Items pods))) as H2.
  pose proof (NoDup_GetImagesV3 _ range_map3_perm _ _ H3) as H3'.
  split; [done|].
  intros x pod c Hne Hpod Hc Hx.
  assert (x ∈ scanned (v1.Items pods)) as Hin
    by (apply elem_of_scanned; eauto 6).
  repeat split; apply count_occ_NoDup; try done.
  - rewrite getImagesV1_first_seen, elem_of_first_seen. set_solver.
  - by apply elem_of_getImagesV2.
  - by apply (elem_of_GetImagesV3 _ range_map3_perm _ _ _ H3).
Qed.

(** C8: the empty string is in the result of no collector. *)
Theorem collectors_skip_empty (pods : v1.PodList) (out3 : list string) :
  GetImagesV3 range_map3 pods out3 ->
  ("" ∉ getImagesV1 pods)
  /\ ("" ∉ getImagesV2 range_map2 (v1.Items pods))
  /\ ("" ∉ out3).
Proof.
  intros H3. pose proof (empty_not_scanned (v1.Items pods)) as Hempty.
  repeat split.
  - rewrite getImagesV1_first_seen, elem_of_first_seen. tauto.
  - by rewrite (elem_of_getImagesV2 _ range_map2_perm).
  - by rewrite (elem_of_GetImagesV3 _ range_map3_perm _ _ _ H3).
Qed.

End collector_claims.

(** ** The streaming collector and its source *)

Section streaming_facts.

Import k8s scan.

Context {error : Type}.
Variable range_map : gset string -> list string.
Hypothesis range_map_perm : forall set, range_map set ≡ₚ elements set.
Variable List : nat -> metav1.ListOptions -> result error v1.PodList.
Variable ctx_Done : nat -> bool.

(** The sequential collector returns the error of its fetch. *)
Lemma GetClusterImagesV1_propagates (err : error) :
  List 0 {| metav1.Limit := 0; metav1.Continue := "" |} = Err err ->
  GetClusterImagesV1 List = ([], Some err).
Proof. unfold GetClusterImagesV1. by intros ->. Qed.

(** A page is published whole when no [select] takes [ctx.Done()]. *)
Lemma publish_all (items : list v1.Pod) (sent : nat) :
  (forall n, n < length items -> ctx_Done (sent + n) = false) ->
  publish ctx_Done items sent = (items, false).
Proof.
  revert sent. induction items as [|pod items IH]; intros sent H; [done|].
  cbn [publish]. rewrite <-(Nat.add_0_r sent) at 1.
  rewrite H by (simpl; lia). rewrite IH; [done|].
  intros n Hn. rewrite Nat.add_succ_comm. apply H. simpl. lia.
Qed.

(** One turn of the loop of the producing goroutine. *)
Lemma producer_ok (fuel calls sent : nat) (continueToken : string)
    (pods : v1.PodList) :
  List calls {| metav1.Limit := 100; metav1.Continue := continueToken |}
  = Ok pods ->
  producer List ctx_Done (S fuel) calls sent continueToken
  = let '(published, cancelled) := publish ctx_Done (v1.Items pods) sent in
    if cancelled then Some published
    else if decide (v1.Continue pods = "") then Some published
         else rest ← producer List ctx_Done fuel (S calls)
                       (sent + length published) (v1.Continue pods);
              Some (published ++ rest).
Proof. intros H. cbn [producer]. by rewrite H. Qed.

(** A failed fetch makes the producing goroutine return at once, whatever
    it has published before. *)
Lemma producer_fetch_error (fuel calls sent : nat) (continueToken : string)
    (err : error) :
  List calls {| metav1.Limit := 100; metav1.Continue := continueToken |}
  = Err err ->
  producer List ctx_Done (S fuel) calls sent continueToken = Some [].
Proof. intros H. cbn [producer]. by rewrite H. Qed.

(** More fuel does not change what the producing goroutine publishes. *)
Lemma producer_fuel_mono (fuel calls sent : nat) (continueToken : string)
    (podChan : list v1.Pod) :
  producer List ctx_Done fuel calls sent continueToken = Some podChan ->
  producer List ctx_Done (S fuel) calls sent continueToken = Some podChan.
Proof.
  revert calls sent continueToken podChan.
  induction fuel as [|fuel IH]; intros calls sent tok podChan; [done|].
  destruct (List calls {| metav1.Limit := 100; metav1.Continue := tok |})
    as [pods|err] eqn:HL.
  - rewrite !(producer_ok _ _ _ _ _ HL).
    destruct (publish _ _ _) as [published []]; [done|].
    destruct (decide (v1.Continue pods = "")); [done|].
    destruct (producer List ctx_Done fuel _ _ _) as [rest|] eqn:E; [|done].
    by rewrite (IH _ _ _ _ E).
  - by rewrite !(producer_fetch_error _ _ _ _ _ HL).
Qed.

(** With no cancellation and no failure the producing goroutine
    publishes every record of every page, in order, in one call for
    each page. *)
Lemma producer_drains (pages : list v1.PodList) (last : v1.PodList)
    (calls sent : nat) (continueToken : string) :
  (forall n, ctx_Done n = false) ->
  serves List calls continueToken pages last ->
  producer List ctx_Done (S (length pages)) calls sent continueToken
  = Some ((pages ≫= v1.Items) ++ v1.Items last).
Proof.
  intros Hdone. revert calls sent continueToken.
  induction pages as [|page pages IH]; intros calls sent tok.
  - intros [Hlast Hend]. rewrite (producer_ok _ _ _ _ _ Hlast).
    rewrite publish_all by done. by rewrite decide_True.
  - intros (Hpage & Hmore & Hrest). cbn [length].
    rewrite (producer_ok _ _ _ _ _ Hpage).
    rewrite publish_all by done. rewrite decide_False by done.
    rewrite (IH _ _ _ Hrest). simpl. by rewrite <-app_assoc.
Qed.

(** The streaming collector then returns the identifiers of all the
    records served. *)
Lemma GetClusterImagesV2_drains (pages : list v1.PodList)
    (last : v1.PodList) (x : string) :
  (forall n, ctx_Done n = false) ->
  serves List 0 "" pages last ->
  exists out,
    GetClusterImagesV2 range_map List ctx_Done (S (length pages))
    = Some (out, None)
    /\ (x ∈ out <-> x ∈ scanned ((pages ≫= v1.Items) ++ v1.Items last)).
Proof.
  intros Hdone Hserves. unfold GetClusterImagesV2.
  rewrite (producer_drains _ _ _ _ _ Hdone Hserves). simpl.
  eexists. split; [done|]. by apply elem_of_getImagesV2.
Qed.

(** The producing goroutine publishes every record of the pages served
    before a failing fetch, and returns at that fetch. *)
Lemma producer_until_error (pages : list v1.PodList) (err : error)
    (fuel calls sent : nat) (continueToken : string) :
  serves_then_fails List calls continueToken pages err ->
  (forall n, n < length (pages ≫= v1.Items) -> ctx_Done (sent + n) = false) ->
  producer List ctx_Done (S (length pages + fuel)) calls sent continueToken
  = Some (pages ≫= v1.Items).
Proof.
  revert calls sent continueToken.
  induction pages as [|page pages IH]; intros calls sent tok.
  - intros Herr _. by rewrite (producer_fetch_error _ _ _ _ _ Herr).
  - intros (Hpage & Hmore & Hrest) Hdone. cbn [length Nat.add].
    rewrite (producer_ok _ _ _ _ _ Hpage).
    cbn [mbind list_bind] in Hdone. rewrite length_app in Hdone.
    rewrite publish_all by (intros n Hn; apply Hdone; lia).
    rewrite decide_False by done.
    rewrite (IH _ _ _ Hrest); [done|].
    intros n Hn. rewrite <-Nat.add_assoc. apply Hdone. lia.
Qed.

(** C2, as the code has it: the streaming collector never returns an
    error.  A failure of the first fetch ends the stream like any later
    one: the result is then empty and the error nil.  A failure of any
    later fetch, the pages before it published whole, leaves the
    identifiers of those pages and a nil error; and wherever the
    producing goroutine stands, a failing fetch makes it return at once,
    publishing nothing more. *)
Theorem GetClusterImagesV2_swallows_fetch_errors :
  (forall fuel r,
      GetClusterImagesV2 range_map List ctx_Done fuel = Some r -> r.2 = None)
  /\ (forall fuel err,
        List 0 {| metav1.Limit := 100; metav1.Continue := "" |} = Err err ->
        GetClusterImagesV2 range_map List ctx_Done (S fuel)
        = Some ([], None))
  /\ (forall fuel pages err,
        serves_then_fails List 0 "" pages err ->
        (forall n, n < length (pages ≫= v1.Items) -> ctx_Done n = false) ->
        GetClusterImagesV2 range_map List ctx_Done (S (length pages + fuel))
        = Some (getImagesV2 range_map (pages ≫= v1.Items), None))
  /\ (forall fuel calls sent continueToken err,
        List calls {| metav1.Limit := 100;
                      metav1.Continue := continueToken |} = Err err ->
        producer List ctx_Done (S fuel) calls sent continueToken = Some []).
Proof.
  split; [|split; [|split]].
  - intros fuel r. unfold GetClusterImagesV2.
    destruct (producer _ _ _ _ _ _); simpl; [|done]. by intros [= <-].
  - intros fuel err Herr. unfold GetClusterImagesV2.
    rewrite (producer_fetch_error _ _ _ _ _ Herr). simpl.
    unfold getImagesV2. simpl. by rewrite range_map_empty.
  - intros fuel pages err Hserves Hdone. unfold GetClusterImagesV2.
    by rewrite (producer_until_error _ _ _ _ _ _ Hserves).
  - intros fuel calls sent tok err Herr.
    by apply (producer_fetch_error _ _ _ _ _ Herr).
Qed.

End streaming_facts.

(** C2 as stated fails: when the first fetch fails the streaming
    collector returns an empty result and a nil error, not the error of
    the fetch. *)
Lemma GetClusterImagesV2_initial_failure_not_propagated :
  ~ (forall (List : nat -> metav1.ListOptions -> result string v1.PodList)
            (ctx_Done : nat -> bool) (fuel : nat) (err : string)
            (r : list string * option string),
        List 0 {| metav1.Limit := 100; metav1.Continue := "" |} = Err err ->
        k8s.GetClusterImagesV2 elements List ctx_Done fuel = Some r ->
        r.2 = Some err).
Proof.
  intros H.
  specialize (H sample.unreachable sample.never_done 1 "connection refused"
                ([], None) eq_refl eq_refl).
  discriminate H.
Qed.

Lemma GetClusterImagesV2_swallows_fetch_errors_witness :
  k8s.GetClusterImagesV2 elements sample.unreachable sample.never_done 1
  = Some ([], None)
  /\ k8s.GetClusterImagesV2 elements sample.interrupted sample.never_done 2
     = Some (k8s.getImagesV2 elements
               (v1.Items (sample.page [["a:1"; "b"]; ["a:1"]] "next")),
             None)
  /\ k8s.GetClusterImagesV2 elements sample.two_then_fail
       (sample.done_from 4) 3
     = Some (k8s.getImagesV2 elements
               (v1.Items (sample.page [["a:1"; "b"]; ["a:1"]] "p2")
                ++ v1.Items (sample.page [["c:3"]; []] "p3")),
             None).
Proof.
  split; [|split].
  - apply (proj1 (proj2 (GetClusterImagesV2_swallows_fetch_errors
                           elements (fun set => reflexivity _)
                           sample.unreachable sample.never_done))
             0 "connection refused").
    reflexivity.
  - apply (proj1 (proj2 (proj2 (GetClusterImagesV2_swallows_fetch_errors
                           elements (fun set => reflexivity _)
                           sample.interrupted sample.never_done)))
             0 [sample.page [["a:1"; "b"]; ["a:1"]] "next"]
             "connection refused").
    + repeat split. discriminate.
    + reflexivity.
  - apply (proj1 (proj2 (proj2 (GetClusterImagesV2_swallows_fetch_errors
                           elements (fun set => reflexivity _)
                           sample.two_then_fail (sample.done_from 4))))
             0 [sample.page [["a:1"; "b"]; ["a:1"]] "p2";
                sample.page [["c:3"]; []] "p3"]
             "connection refused").
    + repeat split; discriminate.
    + intros n Hn. simpl in Hn. unfold sample.done_from.
      apply Nat.leb_gt. lia.
Defined.

Lemma collectors_same_set_witness :
  (exists out3, k8s.GetImagesV3 elements sample.five out3)
  /\ list_to_set (k8s.getImagesV1 sample.five)
     =@{gset string}
     list_to_set (k8s.getImagesV2 elements (v1.Items sample.five))
  /\ forall out3, k8s.GetImagesV3 elements sample.five out3 ->
       list_to_set out3 =@{gset string}
       list_to_set (k8s.getImagesV1 sample.five).
Proof.
  apply (collectors_same_set elements elements
           (fun set => reflexivity _) (fun set => reflexivity _) sample.five).
Defined.

(** The result of the fan-out collector on the five sample records when
    the goroutines run one after the other. *)
Lemma GetImagesV3_five :
  k8s.GetImagesV3 elements sample.five
    (elements (k8s.imageSet
                 (k8s.V3exec
                    (k8s.V3sequential (k8s.workers (k8s.V3init sample.five)))
                    (k8s.V3init sample.five)))).
Proof. apply GetImagesV3_returns. Qed.

Lemma collectors_no_duplicates_witness :
  count_occ string_dec (k8s.getImagesV1 sample.five) "x:1" = 1
  /\ count_occ string_dec
       (k8s.getImagesV2 elements (v1.Items sample.five)) "x:1" = 1
  /\ count_occ string_dec
       (elements (k8s.imageSet
                    (k8s.V3exec
                       (k8s.V3sequential
                          (k8s.workers (k8s.V3init sample.five)))
                       (k8s.V3init sample.five)))) "x:1" = 1.
Proof.
  apply (proj2 (collectors_no_duplicates elements elements
                  (fun set => reflexivity _) (fun set => reflexivity _)
                  sample.five _ GetImagesV3_five)
           "x:1" (sample.pod ["x:1"; "y:2"]) (v1.Build_Container "x:1")).
  - discriminate.
  - apply list_elem_of_here.
  - apply list_elem_of_here.
  - reflexivity.
Defined.

Lemma collectors_skip_empty_witness :
  ("" ∉ k8s.getImagesV1 sample.five)
  /\ ("" ∉ k8s.getImagesV2 elements (v1.Items sample.five))
  /\ ("" ∉ elements (k8s.imageSet
                       (k8s.V3exec
                          (k8s.V3sequential
                             (k8s.workers (k8s.V3init sample.five)))
                          (k8s.V3init sample.five)))).
Proof.
  apply (collectors_skip_empty elements elements
           (fun set => reflexivity _) (fun set => reflexivity _)
           sample.five _ GetImagesV3_five).
Defined.


(** * Further properties *)

(** ** The image name parser *)

Section parser_more.

Import gostrings image.

Lemma Count_0 (s : string) (sep : ascii) :
  Count s sep = 0 <-> Contains s sep = false.
Proof.
  induction s as [|c s IH]; simpl; [done|].
  destruct (Ascii.eqb c sep); simpl; [done|]. apply IH.
Qed.

Lemma Count_first (pre rest : string) (sep : ascii) :
  Contains pre sep = false ->
  Count (pre +:+ String sep rest) sep = S (Count rest sep).
Proof.
  induction pre as [|c pre IH]; simpl.
  - by rewrite Ascii.eqb_refl.
  - destruct (Ascii.eqb c sep); simpl; [done|]. apply IH.
Qed.

Lemma append_neq_self (s t : string) : t <> "" -> s +:+ t <> s.
Proof.
  intros Ht. induction s as [|c s IH]; simpl; [done|].
  intros [= Heq]. by apply IH.
Qed.

(** What the parser returns, by the first [":"] of the name. *)
Lemma getFromImageName_shape (i : Image) (raw : string) :
  (Contains raw ":" = false
   /\ getFromImageName i raw
      = Some {| Repository := raw; Tag := "latest" |})
  \/ (exists pre rest s1 tl,
        Contains pre ":" = false /\ raw = pre +:+ ":" +:+ rest
        /\ Split rest ":" = s1 :: tl /\ Contains s1 ":" = false
        /\ getFromImageName i raw
           = Some {| Repository := pre; Tag := s1 |}).
Proof.
  destruct (Contains raw ":") eqn:E.
  - right. apply Contains_first in E as (pre & rest & Hpre & ->).
    destruct (Split rest ":") as [|s1 tl] eqn:Hrest;
      [by destruct (Split_not_nil rest ":")|].
    exists pre, rest, s1, tl. repeat split; try done.
    + pose proof (Split_pieces rest ":") as H. rewrite Hrest in H.
      by inversion H.
    + by apply getFromImageName_present with (tl := tl).
  - left. split; [done|]. by apply getFromImageName_absent.
Qed.

(** X1: for every name the parser returns an image, and neither its
    repository nor its tag contains a [":"]. *)
Theorem getFromImageName_fields_colon_free (i : Image) (raw : string) :
  exists img,
    getFromImageName i raw = Some img
    /\ Contains (Repository img) ":" = false
    /\ Contains (Tag img) ":" = false.
Proof.
  destruct (getFromImageName_shape i raw)
    as [[Hraw ->]|(pre & rest & s1 & tl & Hpre & -> & _ & Hs1 & ->)];
    eexists; (split; [done|]); by split.
Qed.

(** X2: writing the parsed image back as repository, [":"], tag gives
    the name again exactly when the name contains one [":"]: a name
    without [":"] gains the tag ["latest"], and a name with several
    loses what follows the second. *)
Theorem getFromImageName_round_trip (i : Image) (raw : string) :
  exists img,
    getFromImageName i raw = Some img
    /\ (Repository img +:+ ":" +:+ Tag img = raw <-> Count raw ":" = 1).
Proof.
  destruct (getFromImageName_shape i raw)
    as [[Hraw ->]|(pre & rest & s1 & tl & Hpre & -> & Hrest & Hs1 & ->)];
    eexists; (split; [done|]); simpl.
  - apply Count_0 in Hraw. rewrite Hraw. split; [|done].
    intros H. by apply append_neq_self in H.
  - change (":" +:+ rest) with (String ":" rest).
    rewrite Count_first by done.
    pose proof (Split_length rest ":") as Hlen.
    pose proof (Join_Split rest ":") as Hjoin.
    rewrite Hrest in Hlen, Hjoin. split.
    + intros Heq.
      apply (first_sep_unique pre pre s1 rest) in Heq as [_ <-]; [|done..].
      apply Count_0 in Hs1. by rewrite Hs1.
    + intros [= Hcount]. rewrite Hcount in Hlen.
      destruct tl; [|done]. simpl in Hjoin. by rewrite Hjoin.
Qed.

(** X3: parsing is idempotent through writing back: the image parsed
    from any name is parsed again from its own repository, [":"] and
    tag. *)
Theorem NewImage_reparse (raw : string) :
  exists img,
    NewImage raw = Some img
    /\ NewImage (Repository img +:+ ":" +:+ Tag img) = Some img.
Proof.
  unfold NewImage.
  destruct (getFromImageName_shape zero raw)
    as [[Hraw ->]|(pre & rest & s1 & tl & Hpre & -> & Hrest & Hs1 & ->)];
    eexists; (split; [done|]); simpl.
  - by apply getFromImageName_present with (tl := []).
  - apply getFromImageName_present with (tl := []); [done|].
    by apply Split_absent.
Qed.

End parser_more.

(** ** The kubeconfig path and the client *)

Section kubeconfig_more.

Import k8s.

Context {Ctx Config Clientset error : Type}.
Variable Background : Ctx.
Variable HomeDir : string.
Variable Join : list string -> string.
Variable environ : gmap string string.
Variable errors_New : string -> error.
Variable BuildConfigFromFlags : string -> string -> result error Config.
Variable NewForConfig : Config -> result error Clientset.

(** X4: when [KUBE_CONFIG] is set the home directory plays no part:
    [getKubeConfig] returns the value of the variable, and fails when
    that value is the empty string, whether or not there is a home
    directory. *)
Theorem getKubeConfig_env_wins (value : string) :
  environ !! "KUBE_CONFIG" = Some value ->
  getKubeConfig HomeDir Join environ errors_New
  = if decide (value = "") then
      Err (errors_New "kubeconfig path not found, nor provided by environment variable KUBE_CONFIG")
    else Ok value.
Proof.
  intros H. unfold getKubeConfig, env.GetEnvOrDefault, env.LookupEnv.
  by rewrite H.
Qed.

(** X5: a path returned by [getKubeConfig] is never empty, and it is
    either the value of [KUBE_CONFIG] or, when the variable is unset and
    there is a home directory, the path [.kube/config] under it. *)
Theorem getKubeConfig_path (kubeconfig : string) :
  getKubeConfig HomeDir Join environ errors_New = Ok kubeconfig ->
  kubeconfig <> ""
  /\ (environ !! "KUBE_CONFIG" = Some kubeconfig
      \/ (environ !! "KUBE_CONFIG" = None /\ HomeDir <> ""
          /\ kubeconfig = Join [HomeDir; ".kube"; "config"])).
Proof.
  unfold getKubeConfig, env.GetEnvOrDefault, env.LookupEnv.
  destruct (environ !! "KUBE_CONFIG") as [value|] eqn:E.
  - case_decide; [done|]. intros [= <-]. split; [done|]. by left.
  - destruct (decide (HomeDir <> "")) as [Hhome|Hhome].
    + case_decide; [done|]. intros [= <-]. split; [done|]. by right.
    + by rewrite decide_True.
Qed.

(** X6: [NewK8SOutCli] succeeds exactly when the kubeconfig path is
    found, the configuration is built from it with an empty master URL,
    and the clientset is made from that configuration; the client then
    holds that clientset and a context that is not nil. *)
Theorem NewK8SOutCli_success (ctx0 : option Ctx)
    (k : K8SOutCli Ctx Clientset) :
  NewK8SOutCli Background HomeDir Join environ errors_New
    BuildConfigFromFlags NewForConfig ctx0 = Ok k
  <-> exists kubeconfig config cs,
        getKubeConfig HomeDir Join environ errors_New = Ok kubeconfig
        /\ BuildConfigFromFlags "" kubeconfig = Ok config
        /\ NewForConfig config = Ok cs
        /\ k = {| ctx := Some (default Background ctx0);
                 clientset := Some cs |}.
Proof.
  unfold NewK8SOutCli.
  destruct (getKubeConfig _ _ _ _) as [kubeconfig|err];
    [|split; [done|by intros (? & ? & ? & [=] & _)]].
  destruct (BuildConfigFromFlags "" kubeconfig) as [config|err] eqn:Hb;
    [|split; [done|intros (? & ? & ? & [= <-] & H & _); congruence]].
  destruct (NewForConfig config) as [cs|err] eqn:Hn;
    [|split; [done|intros (? & ? & ? & [= <-] & H & H' & _); congruence]].
  split.
  - intros [= <-]. exists kubeconfig, config, cs.
    repeat split; try done. by destruct ctx0.
  - intros (? & ? & ? & [= <-] & H & H' & ->).
    rewrite Hb in H. injection H as <-. rewrite Hn in H'. injection H' as <-.
    by destruct ctx0.
Qed.

(** X7: [NewK8SOutCli] returns the first error met, in the order
    kubeconfig path, configuration, clientset, and no error of its
    own. *)
Theorem NewK8SOutCli_failure (ctx0 : option Ctx) (err : error) :
  NewK8SOutCli Background HomeDir Join environ errors_New
    BuildConfigFromFlags NewForConfig ctx0 = Err err
  <-> getKubeConfig HomeDir Join environ errors_New = Err err
      \/ exists kubeconfig,
           getKubeConfig HomeDir Join environ errors_New = Ok kubeconfig
           /\ (BuildConfigFromFlags "" kubeconfig = Err err
               \/ exists config,
                    BuildConfigFromFlags "" kubeconfig = Ok config
                    /\ NewForConfig config = Err err).
Proof.
  unfold NewK8SOutCli.
  destruct (getKubeConfig _ _ _ _) as [kubeconfig|err0].
  - destruct (BuildConfigFromFlags "" kubeconfig) as [config|err1] eqn:Hb.
    + destruct (NewForConfig config) as [cs|err2] eqn:Hn.
      * split; [done|]. intros [[=]|(? & [= <-] & [H|(? & H & H')])];
          congruence.
      * split.
        -- intros [= <-]. right. exists kubeconfig. split; [done|].
           right. by exists config.
        -- intros [[=]|(? & [= <-] & [H|(? & H & H')])]; congruence.
    + split.
      * intros [= <-]. right. exists kubeconfig. split; [done|]. by left.
      * intros [[=]|(? & [= <-] & [H|(? & H & H')])]; congruence.
  - split.
    + intros [= <-]. by left.
    + intros [[= <-]|(? & [=] & _)]. done.
Qed.

End kubeconfig_more.

(** ** The sequential collector *)

Section sequential_more.

Import k8s scan.

Lemma filter_ext_elem_of (P Q : string -> Prop)
    `{!forall x, Decision (P x), !forall x, Decision (Q x)} (l : list string) :
  (forall x, x ∈ l -> P x <-> Q x) -> filter P l = filter Q l.
Proof.
  induction l as [|y l IH]; intros Hext; [done|].
  rewrite !filter_cons, IH by (intros x Hx; apply Hext; by right).
  pose proof (Hext y (list_elem_of_here y l)).
  destruct (decide (P y)), (decide (Q y)); tauto || done.
Qed.

Lemma first_seen_filter (earlier earlier' l : list string) :
  earlier ⊆ earlier' ->
  first_seen earlier' l
  = filter (fun x => x ∉ earlier') (first_seen earlier l).
Proof.
  revert earlier earlier'.
  induction l as [|y l IH]; intros earlier earlier' Hsub; [done|].
  cbn [first_seen].
  assert (first_seen (y :: earlier') l
          = filter (fun x => x ∉ earlier') (first_seen (y :: earlier) l))
    as Hrest.
  { rewrite (IH (y :: earlier) (y :: earlier')) by set_solver.
    apply filter_ext_elem_of. intros x Hx.
    apply elem_of_first_seen in Hx. set_solver. }
  destruct (decide (y ∈ earlier)) as [Hy|Hy].
  - rewrite decide_True by set_solver. done.
  - rewrite filter_cons. destruct (decide (y ∈ earlier')) as [Hy'|Hy'].
    + by rewrite decide_False by tauto.
    + rewrite decide_True by done. by rewrite Hrest.
Qed.

Lemma first_seen_fresh (earlier l : list string) :
  NoDup l -> (forall x, x ∈ l -> x ∉ earlier) -> first_seen earlier l = l.
Proof.
  intros Hl. revert earlier.
  induction Hl as [|y l Hy Hl IH]; intros earlier Hfresh; [done|].
  cbn [first_seen]. rewrite decide_False by set_solver.
  rewrite IH; [done|]. set_solver.
Qed.

(** X8: collecting over two runs of records: the result for the first
    run comes first, unchanged, followed by the result for the second
    run without the identifiers already returned for the first. *)
Theorem getImagesV1_app (pods1 pods2 pods : v1.PodList) :
  v1.Items pods = v1.Items pods1 ++ v1.Items pods2 ->
  getImagesV1 pods
  = getImagesV1 pods1
    ++ filter (fun x => x ∉ getImagesV1 pods1) (getImagesV1 pods2).
Proof.
  intros Hitems. rewrite !getImagesV1_first_seen, Hitems.
  unfold scanned, images_of, containers_of.
  rewrite bind_app, fmap_app, filter_app, first_seen_app, app_nil_r.
  f_equal.
  rewrite (first_seen_filter [] (reverse _)) by set_solver.
  apply filter_ext_elem_of. intros x _.
  rewrite elem_of_reverse, elem_of_first_seen. set_solver.
Qed.

Lemma getImagesV1_app_witness :
  getImagesV1 sample.five
  = getImagesV1 (sample.page [["x:1"; "y:2"]; ["x:1"]] "")
    ++ filter (fun x => x ∉ getImagesV1
                               (sample.page [["x:1"; "y:2"]; ["x:1"]] ""))
         (getImagesV1 (sample.page
                         [[""; "x:1"]; ["z"; "x:1"; "y:2"]; ["x:1"]] "")).
Proof.
  apply (getImagesV1_app
           (sample.page [["x:1"; "y:2"]; ["x:1"]] "")
           (sample.page [[""; "x:1"]; ["z"; "x:1"; "y:2"]; ["x:1"]] "")
           sample.five).
  reflexivity.
Defined.

(** X9: the sequential collector returns the scanned identifiers
    themselves, all of them in scan order, exactly when no identifier is
    scanned twice. *)
Theorem getImagesV1_identity (pods : v1.PodList) :
  getImagesV1 pods = scanned (v1.Items pods)
  <-> NoDup (scanned (v1.Items pods)).
Proof.
  rewrite getImagesV1_first_seen. split.
  - intros <-. apply NoDup_first_seen.
  - intros H. apply first_seen_fresh; [done|]. set_solver.
Qed.

End sequential_more.

(** ** The order of strings and [slices.Sort] *)

Section Sort_facts.

Import slices.

Lemma ascii_compare_refl (a : ascii) : Ascii.compare a a = Eq.
Proof. unfold Ascii.compare. apply N.compare_refl. Qed.

Lemma ascii_compare_lt_trans (a b c : ascii) :
  Ascii.compare a b = Lt -> Ascii.compare b c = Lt -> Ascii.compare a c = Lt.
Proof. unfold Ascii.compare. rewrite !N.compare_lt_iff. lia. Qed.

Lemma string_compare_trans (s1 s2 s3 : string) :
  String.compare s1 s2 <> Gt -> String.compare s2 s3 <> Gt ->
  String.compare s1 s3 <> Gt.
Proof.
  revert s2 s3. induction s1 as [|a s1 IH]; intros [|b s2] [|c s3]; simpl;
    try done.
  destruct (Ascii.compare a b) eqn:Hab; [|intros _|done].
  - apply Ascii.compare_eq_iff in Hab as ->.
    destruct (Ascii.compare b c); [apply IH|done..].
  - destruct (Ascii.compare b c) eqn:Hbc; [|intros _|done].
    + apply Ascii.compare_eq_iff in Hbc as ->. by rewrite Hab.
    + by rewrite (ascii_compare_lt_trans _ _ _ Hab Hbc).
Qed.

Lemma string_le_compare (s1 s2 : string) :
  string_le s1 s2 <-> String.compare s1 s2 <> Gt.
Proof.
  unfold string_le, String.leb. by destruct (String.compare s1 s2).
Qed.

#[local] Instance string_le_trans : Transitive string_le.
Proof.
  intros s1 s2 s3. rewrite !string_le_compare. apply string_compare_trans.
Qed.

#[local] Instance string_le_total : Total string_le.
Proof. intros s1 s2. apply String.leb_total. Qed.

#[local] Instance string_le_antisymm : AntiSymm (=) string_le.
Proof. intros s1 s2. apply String.leb_antisym. Qed.

Lemma string_compare_refl (s : string) : String.compare s s = Eq.
Proof.
  induction s as [|a s IH]; simpl; [done|]. by rewrite ascii_compare_refl.
Qed.

Lemma string_lt_le (s1 s2 : string) :
  string_lt s1 s2 <-> string_le s1 s2 /\ s1 <> s2.
Proof.
  unfold string_lt, string_le, String.ltb, String.leb.
  destruct (String.compare s1 s2) eqn:E; split; try done.
  - intros [_ H]. destruct H. by apply String.compare_eq_iff.
  - intros _. split; [done|]. intros ->.
    by rewrite string_compare_refl in E.
  - by intros [? _].
Qed.

Lemma Sort_Permutation (x : list string) : Sort x ≡ₚ x.
Proof. apply merge_sort_Permutation. Qed.

Lemma Sort_sorted (x : list string) : StronglySorted string_le (Sort x).
Proof. apply StronglySorted_merge_sort; apply _. Qed.

(** Sorting forgets the order of its argument. *)
Lemma Sort_unique (x y : list string) : x ≡ₚ y -> Sort x = Sort y.
Proof.
  intros Hxy. apply (Sorted_unique string_le).
  - apply StronglySorted_Sorted, Sort_sorted.
  - apply StronglySorted_Sorted, Sort_sorted.
  - by rewrite !Sort_Permutation.
Qed.

(** A sorted slice without duplicates is strictly increasing. *)
Lemma Sort_strict (x : list string) :
  NoDup x -> StronglySorted string_lt (Sort x).
Proof.
  intros Hx. rewrite <-(Sort_Permutation x) in Hx.
  pose proof (Sort_sorted x) as Hs.
  induction Hs as [|y l Hl IH Hy]; [constructor|].
  apply NoDup_cons in Hx as [Hy' Hx].
  constructor; [by apply IH|].
  apply Forall_forall. intros z Hz. apply string_lt_le. split.
  - by apply (proj1 (Forall_forall _ _) Hy).
  - intros ->. done.
Qed.

End Sort_facts.

(** ** The three collectors *)

Section collectors_more.

Import k8s scan.

Variable range_map2 range_map3 : gset string -> list string.
Hypothesis range_map2_perm : forall set, range_map2 set ≡ₚ elements set.
Hypothesis range_map3_perm : forall set, range_map3 set ≡ₚ elements set.

Lemma getImagesV1_Permutation (l : list v1.Pod) (out : list string) :
  NoDup out -> (forall x, x ∈ out <-> x ∈ scanned l) ->
  out ≡ₚ first_seen [] (scanned l).
Proof.
  intros Hout Hx. apply NoDup_Permutation; [done|apply NoDup_first_seen|].
  intros x. rewrite Hx, elem_of_first_seen. set_solver.
Qed.

Lemma scanned_Permutation (l l' : list v1.Pod) (x : string) :
  l ≡ₚ l' -> x ∈ scanned l <-> x ∈ scanned l'.
Proof.
  intros Hl. rewrite !elem_of_scanned. by setoid_rewrite Hl.
Qed.

(** X10: on the same records the results of the three collectors are
    rearrangements of one another: they hold the same identifiers, each
    once, so they have the same length. *)
Theorem collectors_Permutation (pods : v1.PodList) (out3 : list string) :
  GetImagesV3 range_map3 pods out3 ->
  getImagesV2 range_map2 (v1.Items pods) ≡ₚ getImagesV1 pods
  /\ out3 ≡ₚ getImagesV1 pods
  /\ length (getImagesV2 range_map2 (v1.Items pods))
     = length (getImagesV1 pods)
  /\ length out3 = length (getImagesV1 pods).
Proof.
  intros H3.
  assert (getImagesV2 range_map2 (v1.Items pods) ≡ₚ getImagesV1 pods) as H2.
  { rewrite getImagesV1_first_seen. apply getImagesV1_Permutation.
    - by apply NoDup_range_map.
    - intros x. by apply elem_of_getImagesV2. }
  assert (out3 ≡ₚ getImagesV1 pods) as H3'.
  { rewrite getImagesV1_first_seen. apply getImagesV1_Permutation.
    - by apply (NoDup_GetImagesV3 _ range_map3_perm pods).
    - intros x. by apply (elem_of_GetImagesV3 _ range_map3_perm). }
  repeat split; try done.
  - by rewrite H2.
  - by rewrite H3'.
Qed.

(** X11: when some container of the records has a non-empty image, so
    that no collector returns a nil or an empty slice, the results of
    the three collectors on the same records are, after [slices.Sort]
    as in [main], the same slice. *)
Theorem collectors_Sort (pods : v1.PodList) (out3 : list string)
    (pod : v1.Pod) (c : v1.Container) :
  pod ∈ v1.Items pods -> c ∈ v1.Containers (v1.Spec pod) ->
  v1.Image c <> "" ->
  GetImagesV3 range_map3 pods out3 ->
  (getImagesV1 pods <> []
   /\ getImagesV2 range_map2 (v1.Items pods) <> []
   /\ out3 <> [])
  /\ slices.Sort (getImagesV2 range_map2 (v1.Items pods))
     = slices.Sort (getImagesV1 pods)
  /\ slices.Sort out3 = slices.Sort (getImagesV1 pods).
Proof.
  intros Hpod Hc Hne H3.
  assert (v1.Image c ∈ scanned (v1.Items pods)) as Hin
    by (apply elem_of_scanned; eauto 6).
  split; [|split; apply Sort_unique;
           rewrite getImagesV1_first_seen; apply getImagesV1_Permutation].
  - repeat split; intros Hnil.
    + rewrite getImagesV1_first_seen in Hnil.
      assert (v1.Image c ∈ first_seen [] (scanned (v1.Items pods))) as H
        by (rewrite elem_of_first_seen; set_solver).
      rewrite Hnil in H. by apply elem_of_nil in H.
    + apply (elem_of_getImagesV2 _ range_map2_perm) in Hin.
      rewrite Hnil in Hin. by apply elem_of_nil in Hin.
    + apply (elem_of_GetImagesV3 _ range_map3_perm _ _ _ H3) in Hin.
      rewrite Hnil in Hin. by apply elem_of_nil in Hin.
  - by apply NoDup_range_map.
  - intros x. by apply elem_of_getImagesV2.
  - by apply (NoDup_GetImagesV3 _ range_map3_perm pods).
  - intros x. by apply (elem_of_GetImagesV3 _ range_map3_perm).
Qed.

(** X12: the streaming consumer does not depend on the order in which
    the records arrive on the channel, nor on the order in which the map
    is ranged over, beyond a rearrangement of its result. *)
Theorem getImagesV2_Permutation (podChan podChan' : list v1.Pod) :
  podChan ≡ₚ podChan' ->
  getImagesV2 range_map2 podChan ≡ₚ getImagesV2 range_map3 podChan'.
Proof.
  intros Hl. apply NoDup_Permutation.
  - by apply NoDup_range_map.
  - by apply NoDup_range_map.
  - intros x. rewrite (elem_of_getImagesV2 _ range_map2_perm).
    rewrite (elem_of_getImagesV2 _ range_map3_perm).
    by apply scanned_Permutation.
Qed.

(** X13: a collector returns the empty slice exactly when no container
    of the records has a non-empty image; in particular on no record at
    all. *)
Theorem collectors_empty (pods : v1.PodList) (out3 : list string) :
  GetImagesV3 range_map3 pods out3 ->
  let no_image :=
    forall pod c, pod ∈ v1.Items pods ->
                  c ∈ v1.Containers (v1.Spec pod) -> v1.Image c = "" in
  (getImagesV1 pods = [] <-> no_image)
  /\ (getImagesV2 range_map2 (v1.Items pods) = [] <-> no_image)
  /\ (out3 = [] <-> no_image).
Proof.
  intros H3 no_image.
  assert (forall out : list string,
            (forall x, x ∈ out <-> x ∈ scanned (v1.Items pods)) ->
            out = [] <-> no_image) as Hgen.
  { intros out Hout. subst no_image. split.
    - intros -> pod c Hpod Hc.
      destruct (decide (v1.Image c = "")) as [|Hne]; [done|].
      assert (v1.Image c ∈ scanned (v1.Items pods)) as Hin
        by (apply elem_of_scanned; eauto 6).
      apply Hout in Hin. by apply elem_of_nil in Hin.
    - intros Hno. destruct out as [|x out]; [done|].
      assert (x ∈ scanned (v1.Items pods)) as Hin
        by (apply Hout; left).
      apply elem_of_scanned in Hin as (Hne & pod & c & Hpod & Hc & <-).
      by destruct Hne; eapply Hno. }
  repeat split; apply Hgen; intros x.
  - rewrite getImagesV1_first_seen, elem_of_first_seen. set_solver.
  - rewrite getImagesV1_first_seen, elem_of_first_seen. set_solver.
  - by apply elem_of_getImagesV2.
  - by apply elem_of_getImagesV2.
  - by apply (elem_of_GetImagesV3 _ range_map3_perm).
  - by apply (elem_of_GetImagesV3 _ range_map3_perm).
Qed.

End collectors_more.

(** ** The streaming collector *)

Section streaming_more.

Import k8s scan.

Context {error : Type}.
Variable range_map : gset string -> list string.
Hypothesis range_map_perm : forall set, range_map set ≡ₚ elements set.
Variable List : nat -> metav1.ListOptions -> result error v1.PodList.
Variable ctx_Done : nat -> bool.

Lemma publish_prefix (items : list v1.Pod) (sent : nat) :
  (publish ctx_Done items sent).1 `prefix_of` items
  /\ ((publish ctx_Done items sent).2 = false ->
      (publish ctx_Done items sent).1 = items).
Proof.
  revert sent. induction items as [|pod items IH]; intros sent; [done|].
  cbn [publish]. destruct (ctx_Done sent); [split; [apply prefix_nil|done]|].
  destruct (IH (S sent)) as [Hpre Hall].
  destruct (publish ctx_Done items (S sent)) as [published cancelled].
  simpl in *. split; [by apply prefix_cons|].
  intros Hc. by rewrite Hall.
Qed.

Lemma producer_fuel_le (fuel fuel' calls sent : nat) (continueToken : string)
    (podChan : list v1.Pod) :
  fuel <= fuel' ->
  producer List ctx_Done fuel calls sent continueToken = Some podChan ->
  producer List ctx_Done fuel' calls sent continueToken = Some podChan.
Proof.
  induction 1 as [|fuel' _ IH]; [done|].
  intros H. by apply producer_fuel_mono, IH.
Qed.

Lemma scanned_prefix (l l' : list v1.Pod) (x : string) :
  l `prefix_of` l' -> x ∈ scanned l -> x ∈ scanned l'.
Proof.
  intros [k ->]. rewrite !elem_of_scanned.
  intros (Hne & pod & c & Hpod & Hc). split; [done|].
  exists pod, c. split; [|done]. apply elem_of_app. by left.
Qed.

End streaming_more.

Section cancellation_more.

Import k8s scan.

Context {error : Type}.
Variable range_map : gset string -> list string.
Hypothesis range_map_perm : forall set, range_map set ≡ₚ elements set.
Variable List : nat -> metav1.ListOptions -> result error v1.PodList.
Variable ctx_Done : nat -> bool.

(** What the producing goroutine publishes under cancellation is an
    initial part of what it publishes without. *)
Lemma producer_cancel_prefix (fuel calls sent : nat) (continueToken : string)
    (l l' : list v1.Pod) :
  producer List ctx_Done fuel calls sent continueToken = Some l ->
  producer List (fun _ => false) fuel calls sent continueToken = Some l' ->
  l `prefix_of` l'.
Proof.
  revert calls sent continueToken l l'.
  induction fuel as [|fuel IH]; intros calls sent tok l l'; [done|].
  destruct (List calls {| metav1.Limit := 100; metav1.Continue := tok |})
    as [pods|err] eqn:HL.
  - rewrite !(producer_ok _ _ _ _ _ _ _ HL).
    rewrite (publish_all (fun _ => false)) by done.
    destruct (publish_prefix ctx_Done (v1.Items pods) sent) as [Hpre Hall].
    destruct (publish ctx_Done (v1.Items pods) sent)
      as [published cancelled].
    simpl in Hpre, Hall. destruct cancelled.
    + intros [= <-].
      destruct (decide (v1.Continue pods = "")); [by intros [= <-]|].
      destruct (producer List (fun _ => false) fuel _ _ _); [|done].
      intros [= <-]. by apply prefix_app_r.
    + rewrite Hall by done.
      destruct (decide (v1.Continue pods = ""));
        [by intros [= <-] [= <-]|].
      destruct (producer List ctx_Done fuel _ _ _) as [rest|] eqn:E;
        [|done].
      destruct (producer List (fun _ => false) fuel _ _ _) as [rest'|]
        eqn:E'; [|done].
      intros [= <-] [= <-]. apply prefix_app. by eapply IH.
  - rewrite !(producer_fetch_error _ _ _ _ _ _ _ HL).
    by intros [= <-] [= <-].
Qed.

(** X14: cancellation only loses identifiers: whenever the streaming
    collector returns, under any cancellation, its result is included
    in the result it returns on the same source without cancellation. *)
Theorem GetClusterImagesV2_cancel_subset (fuel fuel' : nat)
    (r r' : list string * option error) :
  GetClusterImagesV2 range_map List ctx_Done fuel = Some r ->
  GetClusterImagesV2 range_map List (fun _ => false) fuel' = Some r' ->
  r.1 ⊆ r'.1.
Proof.
  unfold GetClusterImagesV2.
  destruct (producer List ctx_Done fuel 0 0 "") as [l|] eqn:E; [|done].
  destruct (producer List (fun _ => false) fuel' 0 0 "") as [l'|] eqn:E';
    [|done].
  simpl. intros [= <-] [= <-]. simpl. intros x.
  rewrite !(elem_of_getImagesV2 _ range_map_perm).
  apply scanned_prefix.
  apply (producer_cancel_prefix (fuel `max` fuel') 0 0 "").
  - eapply producer_fuel_le; [|done]. lia.
  - eapply producer_fuel_le; [|done]. lia.
Qed.

End cancellation_more.

Section pagination_more.

Import k8s scan.

Context {error : Type}.
Variable range_map : gset string -> list string.
Hypothesis range_map_perm : forall set, range_map set ≡ₚ elements set.
Variable List : nat -> metav1.ListOptions -> result error v1.PodList.
Variable ctx_Done : nat -> bool.

(** The loop over one page when the first [select] to take the
    [ctx.Done()] case is the one for record number [k]. *)
Lemma publish_cancel_at (items : list v1.Pod) (sent k : nat) :
  sent <= k ->
  (forall n, sent <= n < k -> ctx_Done n = false) ->
  ctx_Done k = true ->
  publish ctx_Done items sent
  = if decide (k - sent < length items) then (take (k - sent) items, true)
    else (items, false).
Proof.
  revert sent. induction items as [|pod items IH]; intros sent Hle Hbefore Hk.
  - cbn [publish length]. case_decide; [lia|done].
  - cbn [publish length]. destruct (decide (sent = k)) as [->|Hne].
    + rewrite Hk, Nat.sub_diag. case_decide; [done|lia].
    + rewrite Hbefore by lia.
      rewrite (IH (S sent));
        [|lia|intros n Hn; apply Hbefore; lia|done].
      replace (k - sent) with (S (k - S sent)) by lia.
      repeat case_decide; try lia; done.
Qed.

Lemma producer_cancel_at (pages : list v1.PodList) (last : v1.PodList)
    (calls sent k : nat) (continueToken : string) :
  serves List calls continueToken pages last ->
  sent <= k ->
  k - sent < length ((pages ≫= v1.Items) ++ v1.Items last) ->
  (forall n, sent <= n < k -> ctx_Done n = false) ->
  ctx_Done k = true ->
  producer List ctx_Done (S (length pages)) calls sent continueToken
  = Some (take (k - sent) ((pages ≫= v1.Items) ++ v1.Items last)).
Proof.
  revert calls sent continueToken.
  induction pages as [|page pages IH]; intros calls sent tok.
  - intros [Hlast Hend] Hle Hlt Hbefore Hk.
    change (([] ≫= v1.Items) ++ v1.Items last) with (v1.Items last) in *.
    rewrite (producer_ok _ _ _ _ _ _ _ Hlast).
    rewrite (publish_cancel_at _ _ k) by done.
    by rewrite decide_True by done.
  - intros (Hpage & Hmore & Hrest) Hle Hlt Hbefore Hk.
    cbn [mbind list_bind length] in Hlt |- *.
    rewrite <-app_assoc in Hlt |- *. rewrite length_app in Hlt.
    rewrite (producer_ok _ _ _ _ _ _ _ Hpage).
    rewrite (publish_cancel_at _ _ k) by done.
    destruct (decide (k - sent < length (v1.Items page))) as [Hin|Hout].
    + by rewrite take_app_le by lia.
    + rewrite decide_False by done.
      rewrite (IH _ (sent + length (v1.Items page)) _ Hrest);
        [|lia|lia|intros n Hn; apply Hbefore; lia|done].
      simpl. rewrite (take_app_ge (v1.Items page)) by lia.
      do 3 f_equal. lia.
Qed.

(** X15: cancellation takes effect between two records: on a source of
    finitely many pages, if the first [select] to take the [ctx.Done()]
    case is the one for record number [k], counted from 0 over all the
    pages, the streaming collector returns, with a nil error, what the
    first [k] records hold and nothing of the others; for [k = 0] its
    result is empty. *)
Theorem GetClusterImagesV2_cancel_at (pages : list v1.PodList)
    (last : v1.PodList) (k : nat) :
  serves List 0 "" pages last ->
  k < length ((pages ≫= v1.Items) ++ v1.Items last) ->
  (forall n, n < k -> ctx_Done n = false) ->
  ctx_Done k = true ->
  GetClusterImagesV2 range_map List ctx_Done (S (length pages))
  = Some (getImagesV2 range_map
            (take k ((pages ≫= v1.Items) ++ v1.Items last)), None)
  /\ (k = 0 ->
      GetClusterImagesV2 range_map List ctx_Done (S (length pages))
      = Some ([], None)).
Proof.
  intros Hserves Hlt Hbefore Hk.
  assert (producer List ctx_Done (S (length pages)) 0 0 ""
          = Some (take k ((pages ≫= v1.Items) ++ v1.Items last))) as Hp.
  { rewrite (producer_cancel_at pages last 0 0 k "");
      rewrite ?Nat.sub_0_r; try done; try lia.
    intros n Hn. apply Hbefore. lia. }
  unfold GetClusterImagesV2. rewrite Hp. simpl. split; [done|].
  intros ->. rewrite take_0. unfold getImagesV2. simpl.
  by rewrite (range_map_empty _ range_map_perm).
Qed.

Lemma producer_endless (fuel calls sent : nat) (continueToken : string) :
  (forall calls opts,
      exists pods, List calls opts = Ok pods /\ v1.Continue pods <> "") ->
  (forall n, ctx_Done n = false) ->
  producer List ctx_Done fuel calls sent continueToken = None.
Proof.
  intros Hmore Hdone. revert calls sent continueToken.
  induction fuel as [|fuel IH]; intros calls sent tok; [done|].
  destruct (Hmore calls {| metav1.Limit := 100; metav1.Continue := tok |})
    as (pods & HL & Hcont).
  rewrite (producer_ok _ _ _ _ _ _ _ HL), publish_all by done.
  rewrite decide_False by done. by rewrite IH.
Qed.

(** X16: the pagination loop has no bound of its own: if every fetch
    succeeds with a continuation token that is not empty and the
    context is never done, the streaming collector does not return,
    however many pages it fetches. *)
Theorem GetClusterImagesV2_endless (fuel : nat) :
  (forall calls opts,
      exists pods, List calls opts = Ok pods /\ v1.Continue pods <> "") ->
  (forall n, ctx_Done n = false) ->
  GetClusterImagesV2 range_map List ctx_Done fuel = None.
Proof.
  intros Hmore Hdone. unfold GetClusterImagesV2.
  by rewrite producer_endless.
Qed.

Lemma producer_short (pages : list v1.PodList) (last : v1.PodList)
    (fuel calls sent : nat) (continueToken : string) :
  (forall n, ctx_Done n = false) ->
  serves List calls continueToken pages last ->
  fuel <= length pages ->
  producer List ctx_Done fuel calls sent continueToken = None.
Proof.
  intros Hdone. revert fuel calls sent continueToken.
  induction pages as [|page pages IH]; intros fuel calls sent tok.
  - intros _ Hfuel. simpl in Hfuel. by replace fuel with 0 by lia.
  - intros (Hpage & Hmore & Hrest) Hfuel.
    destruct fuel as [|fuel]; [done|].
    rewrite (producer_ok _ _ _ _ _ _ _ Hpage), publish_all by done.
    rewrite decide_False by done.
    rewrite (IH fuel _ _ _ Hrest) by (simpl in Hfuel; lia). done.
Qed.

(** X17: a source of [n] pages with a continuation token and a last
    page without is drained, when the context is never done, in exactly
    [n + 1] fetches: no fewer suffice, and after them the streaming
    collector returns, with a nil error, a rearrangement of what the
    sequential collector returns on all the records at once. *)
Theorem GetClusterImagesV2_pagination (pages : list v1.PodList)
    (last : v1.PodList) :
  (forall n, ctx_Done n = false) ->
  serves List 0 "" pages last ->
  (forall fuel, fuel <= length pages ->
                GetClusterImagesV2 range_map List ctx_Done fuel = None)
  /\ exists out,
       GetClusterImagesV2 range_map List ctx_Done (S (length pages))
       = Some (out, None)
       /\ out ≡ₚ getImagesV1
                  {| v1.Items := (pages ≫= v1.Items) ++ v1.Items last;
                     v1.Continue := "" |}.
Proof.
  intros Hdone Hserves. split.
  - intros fuel Hfuel. unfold GetClusterImagesV2.
    by rewrite (producer_short pages last).
  - unfold GetClusterImagesV2.
    rewrite (producer_drains _ _ _ _ _ _ _ Hdone Hserves). simpl.
    eexists. split; [done|].
    rewrite getImagesV1_first_seen. simpl.
    apply NoDup_Permutation.
    + by apply NoDup_range_map.
    + apply NoDup_first_seen.
    + intros x. rewrite (elem_of_getImagesV2 _ range_map_perm).
      rewrite elem_of_first_seen. set_solver.
Qed.

(** X18: on such a source the streaming collector returns within
    [n + 1] fetches whatever the cancellation. *)
Theorem GetClusterImagesV2_returns (pages : list v1.PodList)
    (last : v1.PodList) :
  serves List 0 "" pages last ->
  is_Some (GetClusterImagesV2 range_map List ctx_Done (S (length pages))).
Proof.
  intros Hserves. unfold GetClusterImagesV2.
  assert (forall calls sent tok,
            serves List calls tok pages last ->
            is_Some (producer List ctx_Done (S (length pages))
                       calls sent tok)) as Hgen.
  { clear Hserves. induction pages as [|page pages' IH];
      intros calls sent tok.
    - intros [Hlast Hend]. rewrite (producer_ok _ _ _ _ _ _ _ Hlast).
      destruct (publish _ _ _) as [published []]; [done|].
      by rewrite decide_True.
    - intros (Hpage & Hmore & Hrest). cbn [length].
      rewrite (producer_ok _ _ _ _ _ _ _ Hpage).
      destruct (publish _ _ _) as [published []]; [done|].
      rewrite decide_False by done.
      by destruct (IH _ (sent + length published) _ Hrest) as [rest ->]. }
  by destruct (Hgen 0 0 "" Hserves) as [l ->].
Qed.

End pagination_more.

(** ** The fan-out collector *)

Section fanout_more.

Import k8s scan.



End fanout_more.

(** ** The entry points *)

Section GetClusterImagesV1_more.

Import k8s scan.

Context {error : Type}.
Variable List : nat -> metav1.ListOptions -> result error v1.PodList.

(** X22: the sequential entry point makes one fetch, of all records at
    once; it returns an error exactly when that fetch fails, and then no
    image; its images never hold a duplicate or the empty string. *)
Theorem GetClusterImagesV1_result :
  (forall err,
      (GetClusterImagesV1 List).2 = Some err
      <-> List 0 {| metav1.Limit := 0; metav1.Continue := "" |} = Err err)
  /\ ((GetClusterImagesV1 List).2 <> None -> (GetClusterImagesV1 List).1 = [])
  /\ NoDup (GetClusterImagesV1 List).1
  /\ "" ∉ (GetClusterImagesV1 List).1.
Proof.
  unfold GetClusterImagesV1.
  destruct (List 0 _) as [pods|err0]; simpl.
  - split; [by split|]. split; [done|].
    rewrite getImagesV1_first_seen. split; [apply NoDup_first_seen|].
    rewrite elem_of_first_seen.
    pose proof (empty_not_scanned (v1.Items pods)). tauto.
  - split; [split; congruence|]. split; [done|].
    split; [constructor|apply not_elem_of_nil].
Qed.

End GetClusterImagesV1_more.

Section main_more.

Import k8s scan cmd.

Context {Ctx Config Clientset error : Type}.
Variable Background : Ctx.
Variable HomeDir : string.
Variable Join : list string -> string.
Variable environ : gmap string string.
Variable errors_New : string -> error.
Variable BuildConfigFromFlags : string -> string -> result error Config.
Variable NewForConfig : Config -> result error Clientset.
Variable List :
  K8SOutCli Ctx Clientset -> nat -> metav1.ListOptions ->
  result error v1.PodList.
Variable Error : error -> string.
Variable json_Marshal : list string -> result error string.

(** X23: when the client is built and the fetch succeeds, what [main]
    renders is the strictly increasing slice of the non-empty images of
    the records: in raw mode it prints that slice in brackets, in JSON
    mode what [json.Marshal] gives for it, and it returns normally. *)
Theorem main_renders_sorted (k : K8SOutCli Ctx Clientset)
    (pods : v1.PodList) :
  NewK8SOutCli Background HomeDir Join environ errors_New
    BuildConfigFromFlags NewForConfig (Some Background) = Ok k ->
  List k 0 {| metav1.Limit := 0; metav1.Continue := "" |} = Ok pods ->
  exists images,
    StronglySorted slices.string_lt images
    /\ (forall x, x ∈ images <-> x ∈ scanned (v1.Items pods))
    /\ main Background HomeDir Join environ errors_New BuildConfigFromFlags
         NewForConfig List Error json_Marshal "raw"
       = ([fmt.Sprint images], Returned)
    /\ main Background HomeDir Join environ errors_New BuildConfigFromFlags
         NewForConfig List Error json_Marshal "json"
       = match json_Marshal images with
         | Ok jsonData => ([jsonData], Returned)
         | Err err => (["Error: " +:+ Error err], Returned)
         end.
Proof.
  intros Hk HL. exists (slices.Sort (getImagesV1 pods)).
  split; [|split; [|split]].
  - apply Sort_strict. rewrite getImagesV1_first_seen.
    apply NoDup_first_seen.
  - intros x. rewrite Sort_Permutation, getImagesV1_first_seen.
    rewrite elem_of_first_seen. set_solver.
  - unfold main, GetClusterImagesV1. by rewrite Hk, HL.
  - unfold main, GetClusterImagesV1. rewrite Hk, HL. simpl.
    by destruct (json_Marshal _).
Qed.

(** X24: how [main] ends otherwise, for every value of the flag: it
    panics with the error of the constructor and prints nothing; it
    prints the text of the error of the fetch and exits with status 1;
    and when the fetch succeeds under a format that is neither ["json"]
    nor ["raw"], it prints nothing and returns normally. *)
Theorem main_outcomes (output : string) :
  (forall err,
      NewK8SOutCli Background HomeDir Join environ errors_New
        BuildConfigFromFlags NewForConfig (Some Background) = Err err ->
      main Background HomeDir Join environ errors_New BuildConfigFromFlags
        NewForConfig List Error json_Marshal output
      = ([], Panicked err))
  /\ (forall k err,
        NewK8SOutCli Background HomeDir Join environ errors_New
          BuildConfigFromFlags NewForConfig (Some Background) = Ok k ->
        List k 0 {| metav1.Limit := 0; metav1.Continue := "" |} = Err err ->
        main Background HomeDir Join environ errors_New BuildConfigFromFlags
          NewForConfig List Error json_Marshal output
        = ([Error err], Exited 1))
  /\ (forall k pods,
        NewK8SOutCli Background HomeDir Join environ errors_New
          BuildConfigFromFlags NewForConfig (Some Background) = Ok k ->
        List k 0 {| metav1.Limit := 0; metav1.Continue := "" |} = Ok pods ->
        output <> "json" -> output <> "raw" ->
        main Background HomeDir Join environ errors_New BuildConfigFromFlags
          NewForConfig List Error json_Marshal output
        = ([], Returned)).
Proof.
  unfold main, GetClusterImagesV1. split; [|split].
  - by intros err ->.
  - by intros k err -> ->.
  - intros k pods -> -> Hjson Hraw. by rewrite !decide_False.
Qed.

End main_more.

(** ** Witnesses *)

Lemma getKubeConfig_env_wins_witness :
  k8s.getKubeConfig (error := string) "/root" sample.home_config
    sample.kube_env id = Ok "/etc/kube.conf"
  /\ k8s.getKubeConfig (error := string) "/root" sample.home_config
       sample.empty_kube_env id
     = Err "kubeconfig path not found, nor provided by environment variable KUBE_CONFIG".
Proof.
  split.
  - exact (getKubeConfig_env_wins "/root" sample.home_config
             sample.kube_env id "/etc/kube.conf" eq_refl).
  - exact (getKubeConfig_env_wins "/root" sample.home_config
             sample.empty_kube_env id "" eq_refl).
Defined.

Lemma getKubeConfig_path_witness :
  "/root/.kube/config" <> ""
  /\ ((∅ : gmap string string) !! "KUBE_CONFIG" = Some "/root/.kube/config"
      \/ ((∅ : gmap string string) !! "KUBE_CONFIG" = None /\ "/root" <> ""
          /\ "/root/.kube/config"
             = sample.home_config ["/root"; ".kube"; "config"])).
Proof.
  exact (getKubeConfig_path (error := string) "/root" sample.home_config
           ∅ id "/root/.kube/config" eq_refl).
Defined.

Lemma NewK8SOutCli_success_witness :
  k8s.NewK8SOutCli (Clientset := string) 0 "/root" sample.home_config
    sample.kube_env id sample.load_config (fun config => Ok config) None
  = Ok {| k8s.ctx := Some 0; k8s.clientset := Some "/etc/kube.conf" |}.
Proof.
  apply (NewK8SOutCli_success (Clientset := string) 0 "/root"
           sample.home_config sample.kube_env id sample.load_config
           (fun config => Ok config) None).
  exists "/etc/kube.conf", "/etc/kube.conf", "/etc/kube.conf".
  repeat split.
Defined.

Lemma NewK8SOutCli_failure_witness :
  k8s.NewK8SOutCli (Ctx := nat) (Clientset := string) 0 "/root"
    sample.home_config ∅ id sample.load_config (fun config => Ok config)
    None
  = Err "no such file".
Proof.
  apply (NewK8SOutCli_failure (Ctx := nat) (Clientset := string) 0 "/root"
           sample.home_config ∅ id sample.load_config
           (fun config => Ok config) None "no such file").
  right. exists "/root/.kube/config". split; [reflexivity|].
  left. reflexivity.
Defined.

Lemma collectors_Permutation_witness :
  k8s.getImagesV2 elements (v1.Items sample.five)
  ≡ₚ k8s.getImagesV1 sample.five
  /\ length (k8s.getImagesV2 elements (v1.Items sample.five)) = 3.
Proof.
  destruct (collectors_Permutation elements elements
              (fun set => reflexivity _) (fun set => reflexivity _)
              sample.five _ GetImagesV3_five) as (H2 & _ & Hlen & _).
  split; [exact H2|exact Hlen].
Defined.

Lemma collectors_Sort_witness :
  slices.Sort (k8s.getImagesV2 elements (v1.Items sample.five))
  = slices.Sort (k8s.getImagesV1 sample.five)
  /\ slices.Sort (k8s.getImagesV1 sample.five) = ["x:1"; "y:2"; "z"].
Proof.
  split; [|reflexivity].
  apply (collectors_Sort elements elements
           (fun set => reflexivity _) (fun set => reflexivity _)
           sample.five _
           (sample.pod ["x:1"; "y:2"]) (v1.Build_Container "x:1")
           (list_elem_of_here _ _) (list_elem_of_here _ _)).
  - discriminate.
  - exact GetImagesV3_five.
Defined.

Lemma getImagesV2_Permutation_witness :
  k8s.getImagesV2 elements
    [sample.pod ["x:1"; "y:2"]; sample.pod ["z"; ""]]
  ≡ₚ k8s.getImagesV2 elements
       [sample.pod ["z"; ""]; sample.pod ["x:1"; "y:2"]].
Proof.
  apply (getImagesV2_Permutation elements elements
           (fun set => reflexivity _) (fun set => reflexivity _)).
  apply perm_swap.
Defined.

Lemma GetImagesV3_blank :
  k8s.GetImagesV3 elements (sample.page [[""]; []; [""; ""]] "")
    (elements (k8s.imageSet
                 (k8s.V3exec [0; 2; 2]
                    (k8s.V3init (sample.page [[""]; []; [""; ""]] ""))))).
Proof.
  eexists. split; [apply V3exec_steps|]. split; [|reflexivity].
  repeat constructor.
Qed.

Lemma collectors_empty_witness :
  k8s.getImagesV1 (sample.page [[""]; []; [""; ""]] "") = []
  /\ k8s.getImagesV1 sample.five <> [].
Proof.
  split.
  - apply (proj1 (collectors_empty elements elements
                    (fun set => reflexivity _) (fun set => reflexivity _)
                    (sample.page [[""]; []; [""; ""]] "") _
                    GetImagesV3_blank)).
    intros pod c Hpod Hc.
    repeat (apply elem_of_cons in Hpod as [->|Hpod];
            [simpl in Hc;
             repeat (apply elem_of_cons in Hc as [->|Hc]; [reflexivity|]);
             by apply elem_of_nil in Hc|]).
    by apply elem_of_nil in Hpod.
  - intros H.
    pose proof (proj1 (proj1 (collectors_empty elements elements
                    (fun set => reflexivity _) (fun set => reflexivity _)
                    sample.five _ GetImagesV3_five)) H
                  (sample.pod ["x:1"; "y:2"]) (v1.Build_Container "x:1")
                  (list_elem_of_here _ _) (list_elem_of_here _ _)) as Hx.
    discriminate Hx.
Defined.

Lemma three_pages_serves :
  k8s.serves sample.three_pages 0 "" [sample.page1; sample.page2]
    sample.page3.
Proof. repeat split; discriminate. Qed.

Lemma GetClusterImagesV2_cancel_subset_witness :
  k8s.GetClusterImagesV2 elements sample.three_pages (sample.done_from 2) 3
  = Some (k8s.getImagesV2 elements (v1.Items sample.page1), None)
  /\ k8s.getImagesV2 elements (v1.Items sample.page1)
     ⊆ k8s.getImagesV2 elements
         (v1.Items sample.page1 ++ v1.Items sample.page2
          ++ v1.Items sample.page3).
Proof.
  split; [reflexivity|].
  exact (GetClusterImagesV2_cancel_subset elements
           (fun set => reflexivity _) sample.three_pages
           (sample.done_from 2) 3 3
           (k8s.getImagesV2 elements (v1.Items sample.page1), None)
           (k8s.getImagesV2 elements
              (v1.Items sample.page1 ++ v1.Items sample.page2
               ++ v1.Items sample.page3), None)
           eq_refl eq_refl).
Defined.

Lemma GetClusterImagesV2_cancel_at_witness :
  k8s.GetClusterImagesV2 elements sample.three_pages (sample.done_from 3) 3
  = Some (k8s.getImagesV2 elements
            (take 3 ((v1.Items sample.page1 ++ v1.Items sample.page2)
                     ++ v1.Items sample.page3)), None)
  /\ k8s.GetClusterImagesV2 elements sample.three_pages sample.always_done 3
     = Some ([], None).
Proof.
  split.
  - apply (proj1 (GetClusterImagesV2_cancel_at elements
                    (fun set => reflexivity _) sample.three_pages
                    (sample.done_from 3) [sample.page1; sample.page2]
                    sample.page3 3 three_pages_serves
                    ltac:(simpl; lia)
                    ltac:(intros n Hn; apply Nat.leb_gt; lia)
                    eq_refl)).
  - apply (proj2 (GetClusterImagesV2_cancel_at elements
                    (fun set => reflexivity _) sample.three_pages
                    sample.always_done [sample.page1; sample.page2]
                    sample.page3 0 three_pages_serves
                    ltac:(simpl; lia)
                    ltac:(intros n Hn; lia)
                    eq_refl)).
    reflexivity.
Defined.

Lemma GetClusterImagesV2_endless_witness :
  k8s.GetClusterImagesV2 elements sample.endless sample.never_done 1000
  = None.
Proof.
  apply (GetClusterImagesV2_endless elements sample.endless
           sample.never_done 1000).
  - intros calls opts. eexists. split; [reflexivity|discriminate].
  - reflexivity.
Defined.

Lemma GetClusterImagesV2_pagination_witness :
  k8s.GetClusterImagesV2 elements sample.three_pages sample.never_done 2
  = None
  /\ exists out,
       k8s.GetClusterImagesV2 elements sample.three_pages
         sample.never_done 3 = Some (out, None)
       /\ out ≡ₚ ["a:1"; "b"; "c:3"; "d"].
Proof.
  destruct (GetClusterImagesV2_pagination elements
              (fun set => reflexivity _) sample.three_pages
              sample.never_done [sample.page1; sample.page2] sample.page3
              (fun n => eq_refl) three_pages_serves) as [Hshort Hdrain].
  split; [exact (Hshort 2 (le_n 2))|exact Hdrain].
Defined.

Lemma GetClusterImagesV2_returns_witness :
  is_Some (k8s.GetClusterImagesV2 elements sample.three_pages
             (sample.done_from 2) 3).
Proof.
  exact (GetClusterImagesV2_returns elements sample.three_pages
           (sample.done_from 2) [sample.page1; sample.page2] sample.page3
           three_pages_serves).
Defined.


Lemma main_renders_sorted_witness :
  exists images,
    StronglySorted slices.string_lt images
    /\ (forall x, x ∈ images <-> x ∈ scan.scanned (v1.Items sample.five))
    /\ cmd.main (Clientset := string) 0 "/root" sample.home_config
         sample.kube_env id sample.load_config (fun config => Ok config)
         (fun _ _ _ => Ok sample.five) id (fun _ => Err "unsupported") "raw"
       = ([fmt.Sprint images], cmd.Returned)
    /\ cmd.main (Clientset := string) 0 "/root" sample.home_config
         sample.kube_env id sample.load_config (fun config => Ok config)
         (fun _ _ _ => Ok sample.five) id (fun _ => Err "unsupported") "json"
       = (["Error: unsupported"], cmd.Returned).
Proof.
  exact (main_renders_sorted (Clientset := string) 0 "/root"
           sample.home_config sample.kube_env id sample.load_config
           (fun config => Ok config) (fun _ _ _ => Ok sample.five) id
           (fun _ => Err "unsupported")
           {| k8s.ctx := Some 0; k8s.clientset := Some "/etc/kube.conf" |}
           sample.five eq_refl eq_refl).
Defined.

Lemma main_outcomes_witness :
  cmd.main (Ctx := nat) (Clientset := string) 0 "/root" sample.home_config
    ∅ id sample.load_config (fun config => Ok config)
    (fun _ _ _ => Ok sample.five) id (fun _ => Ok "[]") "json"
  = ([], cmd.Panicked "no such file")
  /\ cmd.main (Clientset := string) 0 "/root" sample.home_config
       sample.kube_env id sample.load_config (fun config => Ok config)
       (fun _ => sample.unreachable) id (fun _ => Ok "[]") "json"
     = (["connection refused"], cmd.Exited 1)
  /\ cmd.main (Clientset := string) 0 "/root" sample.home_config
       sample.kube_env id sample.load_config (fun config => Ok config)
       (fun _ _ _ => Ok sample.five) id (fun _ => Ok "[]") "yaml"
     = ([], cmd.Returned).
Proof.
  split; [|split].
  - exact (proj1 (main_outcomes (Ctx := nat) (Clientset := string) 0 "/root"
                    sample.home_config ∅ id sample.load_config
                    (fun config => Ok config) (fun _ _ _ => Ok sample.five)
                    id (fun _ => Ok "[]") "json")
             "no such file" eq_refl).
  - exact (proj1 (proj2 (main_outcomes (Clientset := string) 0 "/root"
                    sample.home_config sample.kube_env id sample.load_config
                    (fun config => Ok config) (fun _ => sample.unreachable)
                    id (fun _ => Ok "[]") "json"))
             {| k8s.ctx := Some 0; k8s.clientset := Some "/etc/kube.conf" |}
             "connection refused" eq_refl eq_refl).
  - apply (proj2 (proj2 (main_outcomes (Clientset := string) 0 "/root"
                    sample.home_config sample.kube_env id sample.load_config
                    (fun config => Ok config) (fun _ _ _ => Ok sample.five)
                    id (fun _ => Ok "[]") "yaml"))
             {| k8s.ctx := Some 0; k8s.clientset := Some "/etc/kube.conf" |}
             sample.five eq_refl eq_refl); discriminate.
Defined.

(** ** The goroutines of the fan-out collector *)

Section fanout_facts.

Import scan fanout.

Lemma sum_list_with_insert {A : Type} (f : A -> nat) (l : list A) (i : nat)
    (x y : A) :
  l !! i = Some x ->
  sum_list_with f (<[i := y]> l) + f x = sum_list_with f l + f y.
Proof.
  intros Hi.
  rewrite insert_take_drop by (by eapply lookup_lt_Some).
  assert (sum_list_with f l
          = sum_list_with f (take i l ++ x :: drop (S i) l)) as ->
    by (by rewrite take_drop_middle).
  rewrite !sum_list_with_app. simpl. lia.
Qed.

Lemma running_insert (ws : list goroutine) (i : nat) (w w' : goroutine) :
  ws !! i = Some w ->
  running (<[i := w']> ws) + match w with Run _ => 1 | Ret => 0 end
  = running ws + match w' with Run _ => 1 | Ret => 0 end.
Proof.
  intros Hi. unfold running.
  exact (sum_list_with_insert
           (fun w => match w with Run _ => 1 | Ret => 0 end) ws i w w' Hi).
Qed.

Lemma running_app (ws : list goroutine) (cs : list v1.Container) :
  running (ws ++ [Run cs]) = S (running ws).
Proof. unfold running. rewrite sum_list_with_app. simpl. lia. Qed.

Lemma running_pos (ws : list goroutine) (i : nat) (cs : list v1.Container) :
  ws !! i = Some (Run cs) -> 0 < running ws.
Proof.
  intros Hi. pose proof (running_insert ws i (Run cs) Ret Hi). simpl in *. lia.
Qed.

Lemma running_0 (ws : list goroutine) :
  running ws = 0 -> Forall (fun w => w = Ret) ws.
Proof.
  intros H. apply Forall_lookup. intros i [cs|] Hi; [|done].
  apply running_pos in Hi. lia.
Qed.

(** A goroutine that is not returned can be found. *)
Lemma running_find (ws : list goroutine) :
  0 < running ws -> exists i cs, ws !! i = Some (Run cs).
Proof.
  induction ws as [|[cs|] ws IH]; unfold running; simpl; [lia| |].
  - intros _. by exists 0, cs.
  - intros H. destruct (IH H) as (i & cs & Hi). by exists (S i), cs.
Qed.

Lemma todo_pending_insert (ws : list goroutine) (i : nat)
    (c : v1.Container) (cs : list v1.Container) :
  ws !! i = Some (Run (c :: cs)) ->
  list_to_set (pending (todo <$> ws))
  = k8s.add_image ∅ c ∪ list_to_set (pending (todo <$> <[i := Run cs]> ws)).
Proof.
  intros Hi. rewrite list_fmap_insert. apply pending_insert.
  by rewrite list_lookup_fmap, Hi.
Qed.

Lemma todo_done_insert (ws : list goroutine) (i : nat) :
  ws !! i = Some (Run []) ->
  todo <$> <[i := Ret]> ws = todo <$> ws.
Proof.
  intros Hi. rewrite list_fmap_insert. apply list_insert_id.
  by rewrite list_lookup_fmap, Hi.
Qed.

Lemma scanned_cons (pod : v1.Pod) (pods : list v1.Pod) :
  scanned (pod :: pods)
  = images_of (v1.Containers (v1.Spec pod)) ++ scanned pods.
Proof.
  unfold scanned, images_of, containers_of. simpl.
  by rewrite fmap_app, filter_app.
Qed.

Lemma pending_snoc (ws : list (list v1.Container))
    (cs : list v1.Container) :
  pending (ws ++ [cs]) = pending ws ++ images_of cs.
Proof.
  unfold pending, images_of. rewrite join_app. simpl.
  by rewrite app_nil_r, fmap_app, filter_app.
Qed.

Lemma Inv_init (pods : list v1.Pod) : Inv pods init.
Proof.
  unfold Inv, init. simpl. split_and!; try done; try lia.
  unfold pending, images_of. simpl. set_solver.
Qed.

Lemma Inv_step (pods : list v1.Pod) (st st' : State) :
  Inv pods st -> step pods st st' -> Inv pods st'.
Proof.
  intros (Hp & Hpc & Hcl & Hcd & Hret & Hset) Hstep.
  destruct Hstep; unfold Inv;
    cbn [pc workers wg closer closed imageSet panicked stored] in *.
  - (* add *) destruct Hpc as (Hlen & Hle & Hwg & Hb). 
    split_and!; try done; try lia.
  - (* go *) destruct Hpc as (Hlen & Hle & Hwg & Hb).
    assert (i < length pods) by (by eapply lookup_lt_Some).
    rewrite length_app, running_app, fmap_app. cbn [fmap list_fmap todo].
    rewrite pending_snoc. cbn [length]. rewrite Nat.add_1_r.
    split_and!; try done; try lia; try (intros [?|?]; congruence).
    rewrite <-Hset, Hlen.
      rewrite (drop_S pods pod i) by done.
      rewrite scanned_cons, !list_to_set_app_L. set_solver.
  - (* closer *) destruct Hpc as (Hlen & Hle & Hwg & Hb).
    split_and!; try done; try lia; try (intros [?|?]; congruence).
    split; [|done]. intros Hc. by apply Hcd in Hc.
  - (* skip *)
    pose proof (running_insert ws i _ (Run cs) H) as Hrun. simpl in Hrun.
    rewrite length_insert.
    assert (running (<[i:=Run cs]> ws) = running ws) as -> by lia.
    split; [done|]. split; [done|]. split; [done|]. split; [done|].
    split; [done|].
    rewrite <-Hset, (todo_pending_insert ws i c cs H).
    unfold k8s.add_image. rewrite decide_False by (by intros []).
    set_solver.
  - (* send *)
    pose proof (running_insert ws i _ (Run cs) H) as Hrun. simpl in Hrun.
    rewrite length_insert.
    assert (running (<[i:=Run cs]> ws) = running ws) as -> by lia.
    split; [done|]. split; [done|]. split; [done|]. split; [done|].
    split; [done|].
    rewrite <-Hset, (todo_pending_insert ws i c cs H).
    unfold k8s.add_image. rewrite decide_True by done.
    set_solver.
  - (* send closed *)
    apply running_pos in H. rewrite Hcl in H; [lia|]. right. by apply Hcd.
  - (* store *)
    split; [done|]. split; [done|]. split; [done|]. split; [done|].
    split; [done|]. rewrite <-Hset. set_solver.
  - (* done *)
    pose proof (running_insert ws i _ Ret H) as Hrun. simpl in Hrun.
    pose proof (running_pos _ _ _ H) as Hpos.
    rewrite length_insert, (todo_done_insert ws i H).
    split; [done|]. split; [destruct p; intuition lia|].
    split; [intros Hc; apply Hcl in Hc; lia|]. done.
  - (* done negative *)
    pose proof (running_pos _ _ _ H) as Hpos.
    destruct p; intuition lia.
  - (* wait *)
    split; [done|]. split; [destruct p; intuition congruence|].
    split; [intros _; destruct p; intuition congruence|].
    split; [|done]. split; [|done]. intros Hc. apply Hcd in Hc. done.
  - (* close *)
    split; [done|]. split; [destruct p; intuition congruence|].
    split; [intros _; apply Hcl; by left|]. split; [done|]. done.
  - (* close closed *)
    assert (Closing = Closed) by (by apply Hcd). done.
  - (* range end *)
    split_and!; try done; tauto.
Qed.

Lemma Inv_steps (pods : list v1.Pod) (st st' : State) :
  Inv pods st -> rtc (step pods) st st' -> Inv pods st'.
Proof.
  intros Hinv Hsteps. induction Hsteps as [|st st1 st2 Hstep _ IH]; [done|].
  apply IH. by apply (Inv_step pods st).
Qed.

Lemma Inv_rtc (pods : list v1.Pod) (st : State) :
  rtc (step pods) init st -> Inv pods st.
Proof. apply Inv_steps, Inv_init. Qed.

Lemma Inv_progress (pods : list v1.Pod) (st : State) :
  Inv pods st -> pc st <> Return -> exists st', step pods st st'.
Proof.
  destruct st as [p ws n b cl set pan].
  intros (Hp & Hpc & Hcl & Hcd & Hret & Hset) Hnot.
  cbn [pc workers wg closer closed imageSet panicked] in *. subst pan.
  destruct p as [i|i| |image|]; [| | | |done].
  - destruct Hpc as (Hlen & Hle & Hwg & ->).
    destruct (decide (i = length pods)) as [->|Hne].
    + eexists. apply step_closer.
    + eexists. apply step_add. lia.
  - destruct Hpc as (Hlen & Hlt & Hwg & ->).
    destruct (lookup_lt_is_Some_2 pods i Hlt) as [pod Hpod].
    eexists. by apply (step_go pods i pod).
  - destruct Hpc as (Hlen & Hwg & Hb).
    destruct cl; [eexists; apply step_range_end|].
    destruct (decide (0 < running ws)) as [Hrun|Hrun].
    + destruct (running_find ws Hrun) as (i & [|c cs] & Hi).
      * destruct n as [|n]; [lia|]. eexists. by apply (step_done pods i).
      * destruct (decide (v1.Image c = "")).
        -- eexists. by apply (step_skip pods i c cs).
        -- eexists. by apply (step_send pods i c cs).
    + assert (n = 0) as -> by lia. destruct b; [done| | |].
      * eexists. apply step_wait.
      * eexists. apply step_close.
      * by assert (false = true) by (by apply Hcd).
  - eexists. apply step_store.
Qed.

Lemma Inv_Return (pods : list v1.Pod) (st : State) :
  Inv pods st -> pc st = Return ->
  Forall (fun w => w = Ret) (workers st)
  /\ length (workers st) = length pods
  /\ wg st = 0 /\ closer st = Closed /\ closed st = true
  /\ imageSet st = list_to_set (scanned pods)
  /\ ~ exists st', step pods st st'.
Proof.
  destruct st as [p ws n b cl set pan].
  intros (Hp & Hpc & Hcl & Hcd & Hret & Hset) Hpcr.
  cbn [pc workers wg closer closed imageSet panicked] in *. subst p pan.
  destruct Hpc as (Hlen & Hwg & Hb).
  assert (cl = true) as -> by auto.
  assert (b = Closed) as -> by (by apply Hcd).
  assert (running ws = 0) as Hrun by auto.
  pose proof (running_0 ws Hrun) as Hall.
  split_and!; try done; try lia.
  - rewrite <-Hset, Hlen, drop_all. 
    assert (pending (todo <$> ws) = []) as ->.
    { clear -Hall. induction Hall as [|w ws -> _ IH]; [done|]. done. }
    unfold scanned, images_of, containers_of. simpl. set_solver.
  - intros [st' Hstep]. inversion Hstep; subst;
      try match goal with
          | H : ws !! _ = Some (Run _) |- _ => apply running_pos in H; lia
          end.
Qed.

Lemma cost_cons (c : v1.Container) (cs : list v1.Container) :
  cost (c :: cs) = cost cs + if decide (v1.Image c = "") then 1 else 2.
Proof.
  unfold cost, images_of. rewrite fmap_cons, filter_cons.
  destruct (decide (v1.Image c = "")) as [He|Hne].
  - rewrite decide_False by (by intros []). simpl. lia.
  - rewrite decide_True by done. simpl. lia.
Qed.

Lemma step_measure (pods : list v1.Pod) (st st' : State) :
  step pods st st' -> panicked st' = false ->
  measure pods st = S (measure pods st').
Proof.
  intros Hstep. destruct Hstep; unfold measure;
    cbn [pc workers closer panicked]; intros Hpan; try done; try lia.
  - rewrite (drop_S pods pod i) by done.
    rewrite sum_list_with_app. simpl. lia.
  - rewrite drop_all. simpl. lia.
  - pose proof (sum_list_with_insert
                  (fun w => match w with Run cs => cost cs | Ret => 0 end)
                  ws i _ (Run cs) H) as Hsum.
    cbn beta iota in Hsum. rewrite cost_cons, decide_True in Hsum by done.
    match type of Hsum with
    | ?a + _ = ?b + _ => assert (b = S a) as -> by lia
    end.
    clear. destruct p, b; lia.
  - pose proof (sum_list_with_insert
                  (fun w => match w with Run cs => cost cs | Ret => 0 end)
                  ws i _ (Run cs) H) as Hsum.
    cbn beta iota in Hsum. rewrite cost_cons, decide_False in Hsum by done.
    match type of Hsum with
    | ?a + _ = ?b + _ => assert (b = S (S a)) as -> by lia
    end.
    clear. destruct b; lia.
  - pose proof (sum_list_with_insert
                  (fun w => match w with Run cs => cost cs | Ret => 0 end)
                  ws i _ Ret H) as Hsum.
    cbn beta iota in Hsum. change (cost []) with 1 in Hsum.
    match type of Hsum with
    | ?a + _ = ?b + _ => assert (b = S a) as -> by lia
    end.
    clear. destruct p, b; lia.
Qed.

Lemma measure_init (pods : list v1.Pod) :
  measure pods init
  = 4 + 3 * length pods + length (containers_of pods)
    + length (scanned pods).
Proof.
  unfold measure, init. cbn [pc workers closer]. rewrite drop_0. simpl.
  induction pods as [|pod pods IH]; [done|].
  rewrite scanned_cons. unfold containers_of in *. cbn [mbind list_bind].
  rewrite !length_app. cbn [sum_list_with length]. unfold cost at 1. 
  fold (images_of (v1.Containers (v1.Spec pod))). lia.
Qed.

Lemma measure_Return (pods : list v1.Pod) (st : State) :
  Inv pods st -> pc st = Return -> measure pods st = 0.
Proof.
  intros Hinv Hret.
  destruct (Inv_Return pods st Hinv Hret) as (Hall & _ & _ & Hb & _).
  unfold measure. rewrite Hret, Hb.
  assert (sum_list_with
            (fun w => match w with Run cs => cost cs | Ret => 0 end)
            (workers st) = 0) as ->; [|done].
  induction Hall as [|w ws -> _ IH]; [done|]. done.
Qed.

Lemma nsteps_measure (pods : list v1.Pod) (n : nat) (st st' : State) :
  Inv pods st -> nsteps (step pods) n st st' ->
  n + measure pods st' = measure pods st.
Proof.
  intros Hinv Hsteps.
  induction Hsteps as [|n st st1 st2 Hstep _ IH]; [done|].
  pose proof (Inv_step pods st st1 Hinv Hstep) as Hinv1.
  rewrite (step_measure pods st st1 Hstep) by apply Hinv1.
  rewrite <-(IH Hinv1). lia.
Qed.

Lemma pc_Return_dec (st : State) : pc st = Return \/ pc st <> Return.
Proof. destruct (pc st); (by left) || (by right). Qed.

Lemma fanout_completes (pods : list v1.Pod) (st : State) :
  Inv pods st -> exists st', rtc (step pods) st st' /\ pc st' = Return.
Proof.
  remember (measure pods st) as m eqn:Hm. revert st Hm.
  induction m as [m IH] using lt_wf_ind. intros st -> Hinv.
  destruct (pc_Return_dec st) as [Hret|Hnot]; [by exists st|].
  destruct (Inv_progress pods st Hinv Hnot) as [st1 Hstep].
  pose proof (Inv_step pods st st1 Hinv Hstep) as Hinv1.
  pose proof (step_measure pods st st1 Hstep (proj1 Hinv1)) as Hdec.
  destruct (IH (measure pods st1) ltac:(lia) st1 eq_refl Hinv1)
    as (st' & Hsteps & Hret).
  exists st'. split; [|done]. by eapply rtc_l.
Qed.

Lemma fanout_result_GetImagesV3 (range_map : gset string -> list string)
    (pods : v1.PodList) (st : State) :
  rtc (step (v1.Items pods)) init st -> pc st = Return ->
  k8s.GetImagesV3 range_map pods (range_map (imageSet st)).
Proof.
  intros Hsteps Hret.
  destruct (Inv_Return _ st (Inv_rtc _ st Hsteps) Hret)
    as (_ & _ & _ & _ & _ & -> & _).
  exists (k8s.V3exec (k8s.V3sequential (k8s.workers (k8s.V3init pods)))
            (k8s.V3init pods)).
  split; [apply V3exec_steps|]. split; [apply V3exec_sequential|].
  f_equal. symmetry. apply V3_imageSet; [apply V3exec_steps|].
  apply V3exec_sequential.
Qed.

(** X19: the goroutines of the fan-out collector neither panic nor
    deadlock: in every state of an execution no send has met the closed
    channel, no [wg.Done()] a zero counter and no [close] a closed
    channel, and some goroutine can take a step unless the calling
    goroutine is past its receiving loop; when it is, every per-record
    goroutine has returned, the counter is zero, the channel is closed
    once, and the presence set holds exactly the identifiers of the
    records, so that the slice returned is one of those of
    [GetImagesV3]. *)
Theorem fanout_safe_and_live (pods : v1.PodList) (st : State) :
  rtc (step (v1.Items pods)) init st ->
  panicked st = false
  /\ (pc st <> Return <-> exists st', step (v1.Items pods) st st')
  /\ (pc st = Return ->
      Forall (fun w => w = Ret) (workers st)
      /\ length (workers st) = length (v1.Items pods)
      /\ wg st = 0 /\ closer st = Closed /\ closed st = true
      /\ imageSet st = list_to_set (scanned (v1.Items pods))
      /\ forall range_map,
           k8s.GetImagesV3 range_map pods (range_map (imageSet st))).
Proof.
  intros Hsteps. pose proof (Inv_rtc _ st Hsteps) as Hinv.
  split; [apply Hinv|]. split.
  - split; [by apply Inv_progress|].
    intros Hstep Hret.
    by destruct (Inv_Return _ st Hinv Hret) as (_ & _ & _ & _ & _ & _ & []).
  - intros Hret.
    destruct (Inv_Return _ st Hinv Hret) as (? & ? & ? & ? & ? & ? & _).
    split_and!; try done.
    intros range_map. by apply fanout_result_GetImagesV3.
Qed.

(** X20: the fan-out collector terminates: an execution of [n] steps
    has as many steps left as the total less [n], the total being four
    steps, three for each record, one for each container and one for
    each image sent; the calling goroutine is past its receiving loop
    exactly after that many steps, and every execution can be continued
    to that point. *)
Theorem fanout_terminates (pods : v1.PodList) (n : nat) (st : State) :
  nsteps (step (v1.Items pods)) n init st ->
  let total := 4 + 3 * length (v1.Items pods)
               + length (containers_of (v1.Items pods))
               + length (scanned (v1.Items pods)) in
  n + measure (v1.Items pods) st = total
  /\ (pc st = Return <-> n = total)
  /\ exists st', rtc (step (v1.Items pods)) st st' /\ pc st' = Return.
Proof.
  intros Hsteps total.
  pose proof (Inv_rtc _ st (rtc_nsteps_2 _ _ _ Hsteps)) as Hinv.
  pose proof (nsteps_measure _ n init st (Inv_init _) Hsteps) as Hcount.
  rewrite measure_init in Hcount. fold total in Hcount.
  split; [done|]. split; [|by apply fanout_completes].
  split.
  - intros Hret. rewrite (measure_Return _ st Hinv Hret) in Hcount. lia.
  - intros Hn. destruct (pc_Return_dec st) as [|Hnot]; [done|].
    destruct (Inv_progress _ st Hinv Hnot) as [st1 Hstep].
    pose proof (Inv_step _ st st1 Hinv Hstep) as Hinv1.
    pose proof (step_measure _ st st1 Hstep (proj1 Hinv1)). lia.
Qed.

Lemma fanout_run :
  nsteps (step (v1.Items (sample.page [["a:1"]] ""))) 9 init
    {| pc := Return; workers := [Ret]; wg := 0; closer := Closed;
       closed := true; imageSet := {[ "a:1" ]} ∪ ∅; panicked := false |}.
Proof.
  eapply nsteps_l; [apply step_add; simpl; lia|].
  eapply nsteps_l; [by apply (step_go _ 0 (sample.pod ["a:1"]))|].
  eapply nsteps_l;
    [apply (step_closer (v1.Items (sample.page [["a:1"]] "")))|].
  eapply nsteps_l;
    [by apply (step_send _ 0 (v1.Build_Container "a:1") [])|].
  eapply nsteps_l; [apply step_store|].
  eapply nsteps_l; [by apply (step_done _ 0)|].
  eapply nsteps_l; [apply step_wait|].
  eapply nsteps_l; [apply step_close|].
  eapply nsteps_l; [apply step_range_end|].
  apply nsteps_O.
Qed.

Lemma fanout_safe_and_live_witness :
  imageSet {| pc := Return; workers := [Ret]; wg := 0; closer := Closed;
              closed := true; imageSet := {[ "a:1" ]} ∪ ∅;
              panicked := false |}
  = list_to_set (scanned (v1.Items (sample.page [["a:1"]] ""))).
Proof.
  destruct (fanout_safe_and_live (sample.page [["a:1"]] "") _
              (rtc_nsteps_2 _ _ _ fanout_run)) as (_ & _ & Hret).
  exact (proj1 (proj2 (proj2 (proj2 (proj2 (proj2 (Hret eq_refl))))))).
Defined.

Lemma fanout_terminates_witness :
  9 + measure (v1.Items (sample.page [["a:1"]] ""))
        {| pc := Return; workers := [Ret]; wg := 0; closer := Closed;
           closed := true; imageSet := {[ "a:1" ]} ∪ ∅;
           panicked := false |}
  = 4 + 3 * length (v1.Items (sample.page [["a:1"]] ""))
    + length (containers_of (v1.Items (sample.page [["a:1"]] "")))
    + length (scanned (v1.Items (sample.page [["a:1"]] ""))).
Proof.
  exact (proj1 (fanout_terminates (sample.page [["a:1"]] "") 9 _
                  fanout_run)).
Defined.

End fanout_facts.
